(** * ConfigManagerTool: a shallow embedding of [config_tool.py]

    The tool clones the latest "version folder" of every configured server
    and rewrites the [.ini] files of the copy: literal string replacements
    followed by a renumbering of the 4-5 digit numerals lying in
    [4000, 6000].

    Conventions of the embedding.
    - Python [str] values are lists of characters ([list ascii]); the text
      handled is taken to be ASCII, so that [\d] is ['0'..'9'] and
      [str.lower]/[str.upper] are the ASCII case maps.
    - Python [int] is [Z].
    - A file's content is its decoded text, with ['\n'] as line terminator
      (what [open(..., "r")] hands to [readlines]).
    - The file system is a tree of named entries; a path is the list of the
      names leading from the root to an entry, and [os.path.join p name] is
      [p ++ [name]] (version names are single path components).
    - Functions that print, raise or touch the disk live in a state and
      exception monad over a [world] made of the file system and the
      printed output. *)

From Stdlib Require Import Ascii String.
From Stdlib Require Import List ZArith Lia Bool Arith.
From Stdlib Require DecimalString DecimalZ.
Import ListNotations.

Local Open Scope list_scope.

(** ** Strings *)

Definition str : Type := list ascii.

(** String literals. *)
Definition lit (x : string) : str := list_ascii_of_string x.

Definition str_eqb (a b : str) : bool :=
  if list_eq_dec ascii_dec a b then true else false.

(** [c.isdigit()] restricted to ASCII: the class [\d]. *)
Definition is_digit (c : ascii) : bool :=
  let n := nat_of_ascii c in (48 <=? n)%nat && (n <=? 57)%nat.

(** ASCII [c.lower()] and [c.upper()]. *)
Definition lower_char (c : ascii) : ascii :=
  let n := nat_of_ascii c in
  if (65 <=? n)%nat && (n <=? 90)%nat then ascii_of_nat (n + 32) else c.

Definition upper_char (c : ascii) : ascii :=
  let n := nat_of_ascii c in
  if (97 <=? n)%nat && (n <=? 122)%nat then ascii_of_nat (n - 32) else c.

Definition lower (x : str) : str := map lower_char x.
Definition upper (x : str) : str := map upper_char x.

(** ASCII [c.isspace()]: TAB..CR, FS..US and the space. *)
Definition is_space (c : ascii) : bool :=
  let n := nat_of_ascii c in
  ((9 <=? n)%nat && (n <=? 13)%nat) || ((28 <=? n)%nat && (n <=? 32)%nat).

Fixpoint lstrip (x : str) : str :=
  match x with
  | c :: x' => if is_space c then lstrip x' else x
  | [] => []
  end.

(** [x.strip()] *)
Definition strip (x : str) : str := rev (lstrip (rev (lstrip x))).

(** [x.startswith(p)] *)
Fixpoint startswith (p x : str) : bool :=
  match p, x with
  | [], _ => true
  | a :: p', b :: x' => if ascii_dec a b then startswith p' x' else false
  | _ :: _, [] => false
  end.

(** [x.endswith(p)] *)
Definition endswith (p x : str) : bool := startswith (rev p) (rev x).

(** [old in x]: [old] occurs in [x] as a contiguous substring. *)
Fixpoint occurs (old x : str) : bool :=
  startswith old x ||
  match x with
  | [] => false
  | _ :: x' => occurs old x'
  end.

(** [x.replace(old, new)] for a non-empty [old]: the scan goes left to
    right; where [old] starts, [new] is emitted and the scan resumes after
    the occurrence.  [skip] counts the characters of the occurrence that
    remain to be passed over. *)
Fixpoint replace_from (old new : str) (skip : nat) (x : str) : str :=
  match x with
  | [] => []
  | c :: x' =>
      match skip with
      | S k => replace_from old new k x'
      | O =>
          if startswith old x
          then new ++ replace_from old new (length old - 1) x'
          else c :: replace_from old new 0 x'
      end
  end.

(** [x.replace(old, new)].  With an empty [old], Python inserts [new] before
    every character and at the end. *)
Definition replace (old new x : str) : str :=
  match old with
  | [] => new ++ flat_map (fun c => c :: new) x
  | _ :: _ => replace_from old new 0 x
  end.

(** The digits at the head of [x]. *)
Fixpoint leading_digits (x : str) : str :=
  match x with
  | c :: x' => if is_digit c then c :: leading_digits x' else []
  | [] => []
  end.

(** [re.findall(r"(\d{4,5})", x)]: at each position the greedy quantifier
    takes five digits when there are five, four when there are only four,
    and otherwise the match fails there and the scan moves one character on;
    after a match the scan resumes behind it. *)
Fixpoint findall_from (skip : nat) (x : str) : list str :=
  match x with
  | [] => []
  | _ :: x' =>
      match skip with
      | S k => findall_from k x'
      | O =>
          let n := Nat.min 5 (length (leading_digits x)) in
          if (4 <=? n)%nat
          then firstn n x :: findall_from (n - 1) x'
          else findall_from 0 x'
      end
  end.

Definition findall (x : str) : list str := findall_from 0 x.

(** The value of one decimal digit. *)
Definition digit_val (c : ascii) : Z := Z.of_nat (nat_of_ascii c) - 48.

(** [int(x)] for a string of decimal digits. *)
Definition int_of (x : str) : Z :=
  fold_left (fun acc c => 10 * acc + digit_val c)%Z x 0%Z.

(** [str(n)]: the decimal representation, with a leading [-] below zero. *)
Definition str_of (n : Z) : str :=
  list_ascii_of_string (DecimalString.NilEmpty.string_of_int (Z.to_int n)).

(** ** The content rewriter, on text *)

(** One entry of [environment.json]: [env_rules["replace"].items()] in
    iteration order, and [env_rules["port_offset"]]. *)
Record EnvRules : Type := mkEnvRules {
  replace_items : list (str * str);
  port_offset : Z
}.

(** [for old, new in env_rules["replace"].items(): line = line.replace(old, new)] *)
Definition substitute (items : list (str * str)) (line : str) : str :=
  fold_left (fun l (on : str * str) => replace (fst on) (snd on) l) items line.

Definition in_port_range (v : Z) : bool := ((4000 <=? v) && (v <=? 6000))%Z.

(** The body of [for port in ports]. *)
Definition adjust_port (offset : Z) (line port : str) : str :=
  let port_int := int_of port in
  if in_port_range port_int
  then replace port (str_of (port_int + offset)) line
  else line.

Definition adjust_ports (offset : Z) (ports : list str) (line : str) : str :=
  fold_left (adjust_port offset) ports line.

(** The body of [for line in lines]: the list of candidates is computed once,
    on the line as the string replacements left it. *)
Definition modify_line (env_rules : EnvRules) (line : str) : str :=
  let line := substitute (replace_items env_rules) line in
  adjust_ports (port_offset env_rules) (findall line) line.

Definition newline : ascii := ascii_of_nat 10.

(** [f.readlines()]: every line keeps its terminator; the last one may have
    none. *)
Fixpoint readlines (text : str) : list str :=
  match text with
  | [] => []
  | c :: text' =>
      if ascii_dec c newline then [c] :: readlines text'
      else match readlines text' with
           | [] => [[c]]
           | l :: ls => (c :: l) :: ls
           end
  end.

(** What [modify_ports_and_paths] writes back for a file read as [text]:
    [f.writelines(new_lines)]. *)
Definition modify_text (env_rules : EnvRules) (text : str) : str :=
  concat (map (modify_line env_rules) (readlines text)).

(** ** The file system *)

(** A path is the list of names from the root of the file system. *)
Definition path : Type := list str.

(** A regular file with its text, or a directory with its creation time and
    its entries, in [os.listdir] order. *)
#[warnings="-register-all"]
Inductive node : Type :=
| File (content : str)
| Dir (ctime : Z) (entries : list (str * node)).

Fixpoint find_entry (name : str) (es : list (str * node)) : option node :=
  match es with
  | [] => None
  | (k, c) :: es' => if str_eqb k name then Some c else find_entry name es'
  end.

Fixpoint update_entry (name : str) (g : node -> node)
    (es : list (str * node)) : list (str * node) :=
  match es with
  | [] => []
  | (k, c) :: es' =>
      if str_eqb k name then (k, g c) :: es'
      else (k, c) :: update_entry name g es'
  end.

(** The entry a path leads to, if any. *)
Fixpoint lookup (n : node) (p : path) {struct p} : option node :=
  match p with
  | [] => Some n
  | name :: p' =>
      match n with
      | File _ => None
      | Dir _ es =>
          match find_entry name es with
          | Some c => lookup c p'
          | None => None
          end
      end
  end.

(** Replace the entry at [p] by its image under [g]. *)
Fixpoint update (g : node -> node) (n : node) (p : path) {struct p} : node :=
  match p with
  | [] => g n
  | name :: p' =>
      match n with
      | File _ => n
      | Dir t es => Dir t (update_entry name (fun c => update g c p') es)
      end
  end.

Definition is_dir (n : node) : bool :=
  match n with Dir _ _ => true | File _ => false end.

Definition names (es : list (str * node)) : list str := map fst es.

Definition dir_names (es : list (str * node)) : list str :=
  names (filter (fun e => is_dir (snd e)) es).

Definition file_names (es : list (str * node)) : list str :=
  names (filter (fun e => negb (is_dir (snd e))) es).

(** Names are unique within every directory. *)
Fixpoint wf_node (n : node) : bool :=
  match n with
  | File _ => true
  | Dir _ es =>
      (fix wf_entries (l : list (str * node)) : bool :=
         match l with
         | [] => true
         | (k, c) :: l' =>
             negb (existsb (str_eqb k) (names l')) && wf_node c && wf_entries l'
         end) es
  end.

(** [os.path.exists(p)] *)
Definition path_exists (fs : node) (p : path) : bool :=
  match lookup fs p with Some _ => true | None => false end.

(** [os.path.isdir(p)] *)
Definition isdir (fs : node) (p : path) : bool :=
  match lookup fs p with Some (Dir _ _) => true | _ => false end.

(** [os.path.getctime(p)]; the tool only asks for it on the directories it
    has just listed. *)
Definition getctime (fs : node) (p : path) : Z :=
  match lookup fs p with Some (Dir t _) => t | _ => 0%Z end.

(** [os.path.join(p, name)], [os.path.dirname(p)], [os.path.basename(p)].
    [join] is [os.path.join] for a [name] that is one plain component;
    the empty name, [.], [..], absolute names and names with a separator
    are outside it. *)
Definition join (p : path) (name : str) : path := p ++ [name].
Definition dirname (p : path) : path := removelast p.
Definition basename (p : path) : str := last p [].

(** The directories of a copy are created when the copy is made. *)
Fixpoint stamp (now : Z) (n : node) : node :=
  match n with
  | File c => File c
  | Dir _ es => Dir now (map (fun e => (fst e, stamp now (snd e))) es)
  end.

(** [os.walk(top)] on the tree at [top]: one triple [(root, dirs, files)] per
    directory, top-down. *)
Fixpoint walk_node (root : path) (n : node)
    : list (path * list str * list str) :=
  match n with
  | File _ => []
  | Dir _ es =>
      (root, dir_names es, file_names es)
      :: flat_map (fun e => walk_node (join root (fst e)) (snd e)) es
  end.

Definition walk (fs : node) (top : path)
    : list (path * list str * list str) :=
  match lookup fs top with
  | Some n => walk_node top n
  | None => []
  end.

(** ** Effects: printing, raising, and the disk *)

Inductive exn : Type :=
| FileNotFoundError
| NotADirectoryError
| IsADirectoryError
| FileExistsError.

(** The lines the tool prints. *)
Inductive message : Type :=
| MsgBanner
| MsgProcessing (name : str)
| MsgPathNotFound (server_path : path)
| MsgVersionExists (version : str) (server_path : path)
| MsgCopied (from_version to_version : str)
| MsgUpdated (name version : str)
| MsgInvalidEnvironment
| MsgFound (count : nat)
| MsgAllProcessed.

Record world : Type := mkWorld {
  fs : node;
  clock : Z;
  out : list message
}.

(** A computation either returns or raises, and leaves a world. *)
Definition M (A : Type) : Type := world -> (exn + A) * world.

Definition ret {A} (a : A) : M A := fun w => (inr a, w).
Definition raise {A} (e : exn) : M A := fun w => (inl e, w).
Definition bind {A B} (c : M A) (k : A -> M B) : M B :=
  fun w =>
    match c w with
    | (inr a, w') => k a w'
    | (inl e, w') => (inl e, w')
    end.

Notation "x <- c ;; k" := (bind c (fun x => k))
  (at level 61, c at next level, right associativity).
Notation "c ;; k" := (bind c (fun _ => k))
  (at level 61, right associativity).

Definition get_fs : M node := fun w => (inr (fs w), w).
Definition put_fs (n : node) : M unit :=
  fun w => (inr tt, mkWorld n (clock w) (out w)).
Definition print (m : message) : M unit :=
  fun w => (inr tt, mkWorld (fs w) (clock w) (out w ++ [m])).
Definition tick : M Z :=
  fun w => (inr (clock w), mkWorld (fs w) (clock w + 1) (out w)).

(** [for x in l: body(x)] *)
Fixpoint for_each {A} (l : list A) (body : A -> M unit) : M unit :=
  match l with
  | [] => ret tt
  | x :: l' => body x ;; for_each l' body
  end.

(** ** The tool *)

Record ServerEntry : Type := mkServer {
  server_name : str;
  server_path : path
}.

(** [load_json(file_path)]: the parsed content, or [None] for an absent
    file. *)
Definition load_json {A} (file : option A) : M A :=
  match file with
  | None => raise FileNotFoundError
  | Some data => ret data
  end.

(** [os.listdir(p)] *)
Definition listdir (p : path) : M (list str) :=
  fs <- get_fs ;;
  match lookup fs p with
  | None => raise FileNotFoundError
  | Some (File _) => raise NotADirectoryError
  | Some (Dir _ es) => ret (names es)
  end.

(** [max(l, key=key)] for a non-empty list [x :: l]: the first of the
    elements with the greatest key. *)
Fixpoint max_by {A} (key : A -> Z) (best : A) (l : list A) : A :=
  match l with
  | [] => best
  | x :: l' =>
      if (key best <? key x)%Z then max_by key x l' else max_by key best l'
  end.

Definition get_latest_version_path (server_path : path) : M path :=
  listing <- listdir server_path ;;
  fs <- get_fs ;;
  let subdirs :=
    map (join server_path)
        (filter (fun d => isdir fs (join server_path d)) listing) in
  match subdirs with
  | [] => raise FileNotFoundError
  | d :: ds => ret (max_by (getctime fs) d ds)
  end.

Definition version_exists (server_path : path) (version : str) : M bool :=
  fs <- get_fs ;;
  ret (path_exists fs (join server_path version)).

Definition add_entry (name : str) (c : node) (n : node) : node :=
  match n with
  | File x => File x
  | Dir t es => Dir t (es ++ [(name, c)])
  end.

(** [shutil.copytree(src, dst)]: [src] must be a directory, [dst] must not
    exist, and the copy becomes a new entry of [dst]'s parent. *)
Definition copytree (src dst : path) : M unit :=
  fs <- get_fs ;;
  match lookup fs src with
  | None => raise FileNotFoundError
  | Some (File _) => raise NotADirectoryError
  | Some (Dir t es) =>
      if path_exists fs dst then raise FileExistsError
      else
        now <- tick ;;
        put_fs (update (add_entry (basename dst) (stamp now (Dir t es)))
                       fs (dirname dst))
  end.

Definition copy_version_folder (source_path : path) (new_version : str)
    : M path :=
  let parent := dirname source_path in
  let new_path := join parent new_version in
  copytree source_path new_path ;;
  print (MsgCopied (basename source_path) new_version) ;;
  ret new_path.

Definition write_node (text : str) (n : node) : node :=
  match n with
  | File _ => File text
  | Dir t es => Dir t es
  end.

Definition modify_ports_and_paths (file_path : path) (env_rules : EnvRules)
    : M unit :=
  fs <- get_fs ;;
  match lookup fs file_path with
  | None => raise FileNotFoundError
  | Some (Dir _ _) => raise IsADirectoryError
  | Some (File text) =>
      put_fs (update (write_node (modify_text env_rules text)) fs file_path)
  end.

(** [file.lower().endswith(".ini")] *)
Definition is_ini (file : str) : bool := endswith (lit ".ini") (lower file).

Definition update_environment_files (version_path : path)
    (env_rules : EnvRules) : M unit :=
  fs <- get_fs ;;
  for_each (walk fs version_path) (fun triple =>
    let root := fst (fst triple) in
    let files := snd triple in
    for_each files (fun file =>
      if is_ini file
      then modify_ports_and_paths (join root file) env_rules
      else ret tt)).

Definition process_server (server : ServerEntry) (new_version : str)
    (env_rules : EnvRules) : M unit :=
  print (MsgProcessing (server_name server)) ;;
  let server_path := server_path server in
  fs <- get_fs ;;
  if negb (path_exists fs server_path)
  then print (MsgPathNotFound server_path)
  else
    present <- version_exists server_path new_version ;;
    if present : bool
    then print (MsgVersionExists new_version server_path)
    else
      latest_path <- get_latest_version_path server_path ;;
      new_version_path <- copy_version_folder latest_path new_version ;;
      update_environment_files new_version_path env_rules ;;
      print (MsgUpdated (server_name server) new_version).

(** [environment in env_rules_data] and [env_rules_data[environment]] *)
Fixpoint dict_get {A} (key : str) (d : list (str * A)) : option A :=
  match d with
  | [] => None
  | (k, v) :: d' => if str_eqb k key then Some v else dict_get key d'
  end.

(** [main()]: the two answers typed at the prompts and the two
    configuration files are its inputs. *)
Definition main (version_answer environment_answer : str)
    (servers_file : option (list ServerEntry))
    (env_rules_file : option (list (str * EnvRules))) : M unit :=
  print MsgBanner ;;
  let new_version := strip version_answer in
  let environment := upper (strip environment_answer) in
  servers <- load_json servers_file ;;
  env_rules_data <- load_json env_rules_file ;;
  match dict_get environment env_rules_data with
  | None => print MsgInvalidEnvironment
  | Some env_rules =>
      print (MsgFound (length servers)) ;;
      for_each servers (fun srv => process_server srv new_version env_rules) ;;
      print MsgAllProcessed
  end.

(** ** Vocabulary of the statements *)

Definition space : ascii := ascii_of_nat 32.

(** A numeral: nothing but digits. *)
Definition all_digits (x : str) : bool := forallb is_digit x.

Definition digit_free (x : str) : bool :=
  forallb (fun c => negb (is_digit c)) x.

(** [x] is empty or ends with a character that is not a digit. *)
Definition ends_nondigit (x : str) : bool := negb (is_digit (last x space)).

(** [x] is empty or starts with a character that is not a digit. *)
Definition starts_nondigit (x : str) : bool := negb (is_digit (hd space x)).

(** No run of digits goes across the junction of [a] and [b]. *)
Definition boundary (a b : str) : bool := ends_nondigit a || starts_nondigit b.

(** What a run of digits contributes to [findall]: its successive pieces of
    five digits and, when exactly four digits remain, those four. *)
Fixpoint chunks (run : str) : list str :=
  match run with
  | a :: b :: c :: d :: e :: run' => [a; b; c; d; e] :: chunks run'
  | [a; b; c; d] => [[a; b; c; d]]
  | _ => []
  end.

(** The maximal runs of consecutive digits of a line, left to right. *)
Fixpoint digit_runs (x : str) : list str :=
  match x with
  | [] => []
  | c :: x' =>
      if is_digit c then
        if starts_nondigit x' then [c] :: digit_runs x'
        else match digit_runs x' with
             | r :: rs => (c :: r) :: rs
             | [] => [[c]]
             end
      else digit_runs x'
  end.

(** The numeral [p], to be replaced by [q], is free of collisions with the
    candidates [others]: no candidate in range lies inside [p] unless it is
    [p], and none lies inside [q] unless the replacement changes nothing. *)
Definition collision_free (p q : str) (others : list str) : bool :=
  forallb (fun m =>
    if in_port_range (int_of m)
    then (negb (occurs m p) || str_eqb m p) && (negb (occurs m q) || str_eqb q p)
    else true) others.

(** What the numeral [p] is replaced by. *)
Definition numeral_port (offset : Z) (p : str) : str :=
  str_of (int_of p + offset).

(** [n] is printed as a four-digit numeral that reads back as [n]. *)
Definition port_numeral_ok (n : Z) : bool :=
  all_digits (str_of n) && (length (str_of n) =? 4) && (int_of (str_of n) =? n)%Z.

(** ** Example worlds *)

(** [/srv/api1] holds the versions [3.6.0] and [3.7.0], [/srv/api2] holds no
    version. *)
Definition example_fs : node :=
  Dir 0
    [(lit "srv",
      Dir 0
        [(lit "api1",
          Dir 1
            [(lit "3.6.0", Dir 5 [(lit "app.ini", File (lit "port=4400"))]);
             (lit "3.7.0",
              Dir 7
                [(lit "app.ini", File (lit "port=4500"));
                 (lit "conf",
                  Dir 8
                    [(lit "Env.INI", File (lit "env=dev
alt=5000
"));
                     (lit "readme.txt", File (lit "port=4500"))])]);
             (lit "notes.txt", File (lit "latest is 3.7.0"))]);
         (lit "api2", Dir 2 [])])].

Definition example_world : world := mkWorld example_fs 100 [].

Definition api1 : ServerEntry := mkServer (lit "api1") [lit "srv"; lit "api1"].
Definition api2 : ServerEntry := mkServer (lit "api2") [lit "srv"; lit "api2"].

Definition example_rules : list (str * EnvRules) :=
  [(lit "A", mkEnvRules [(lit "dev", lit "prod")] 100);
   (lit "B", mkEnvRules [] 200)].

(** ** What the content rewriter makes of a tree *)

(** The file system with [x] put at [p]. *)
Definition put_at (n : node) (p : path) (x : node) : node :=
  update (fun _ => x) n p.

(** The tree in which every file whose name ends with [.ini], in any case,
    holds its rewritten text, everything else being as in [n]. *)
Fixpoint rewrite_tree (env_rules : EnvRules) (n : node) : node :=
  match n with
  | File text => File text
  | Dir t es =>
      Dir t (map (fun e =>
                    (fst e,
                     match snd e with
                     | File text =>
                         File (if is_ini (fst e)
                               then modify_text env_rules text else text)
                     | Dir _ _ => rewrite_tree env_rules (snd e)
                     end)) es)
  end.

Definition rewrite_entry (env_rules : EnvRules) (e : str * node) : str * node :=
  (fst e,
   match snd e with
   | File text =>
       File (if is_ini (fst e) then modify_text env_rules text else text)
   | Dir _ _ => rewrite_tree env_rules (snd e)
   end).

(** The same for the files of one directory only. *)
Definition rewrite_file (env_rules : EnvRules) (e : str * node) : str * node :=
  (fst e,
   match snd e with
   | File text =>
       File (if is_ini (fst e) then modify_text env_rules text else text)
   | Dir t es => Dir t es
   end).

(** The body of the loop over [os.walk]. *)
Definition rewrite_files_of (env_rules : EnvRules)
    (triple : path * list str * list str) : M unit :=
  let root := fst (fst triple) in
  let files := snd triple in
  for_each files (fun file =>
    if is_ini file
    then modify_ports_and_paths (join root file) env_rules
    else ret tt).

(** ** Vocabulary of the further statements *)

(** Every file of [f] is a file of [f'], with the same text. *)
Definition files_kept (f f' : node) : Prop :=
  forall (p : path) (text : str),
    lookup f p = Some (File text) -> lookup f' p = Some (File text).

(** A server root whose versions [2.0] and [2.1] were created at the same
    time. *)
Definition tied_world : world :=
  mkWorld
    (Dir 0 [(lit "srv",
             Dir 1 [(lit "1.9", Dir 5 []);
                    (lit "2.0", Dir 9 []);
                    (lit "2.1", Dir 9 [])])])
    50 [].

(** What the new version holds where the latest version holds [n] under the
    name [name]: a file with its text, rewritten if the name is that of an
    INI file; a directory as a rewritten copy. *)
Definition clone_node (env_rules : EnvRules) (now : Z) (name : str)
    (n : node) : node :=
  match n with
  | File text =>
      File (if is_ini name then modify_text env_rules text else text)
  | Dir _ _ => rewrite_tree env_rules (stamp now n)
  end.

(** The names of the servers announced in the output, in order. *)
Fixpoint announced (o : list message) : list str :=
  match o with
  | [] => []
  | MsgProcessing name :: o' => name :: announced o'
  | _ :: o' => announced o'
  end.

(** A name that [os.path.join] and the file system take as one component,
    so that [join] says where it leads: it is not empty, it is neither [.]
    nor [..], it has no separator ([/] or [\]), no drive colon and no NUL
    character, and it is at most 255 characters long. *)
Definition plain_component (name : str) : bool :=
  negb (str_eqb name [])
  && negb (str_eqb name (lit "."))
  && negb (str_eqb name (lit ".."))
  && forallb (fun c =>
       negb (existsb (Nat.eqb (nat_of_ascii c)) [0; 47; 58; 92])) name
  && (length name <=? 255).

(** * Properties *)

(** ** Strings: prefixes and replacement *)

Lemma str_eqb_eq (a b : str) : str_eqb a b = true <-> a = b.
Proof.
  unfold str_eqb. destruct (list_eq_dec ascii_dec a b); split; congruence.
Qed.

Lemma str_eqb_refl (a : str) : str_eqb a a = true.
Proof. now apply str_eqb_eq. Qed.

Lemma startswith_app (old r : str) : startswith old (old ++ r) = true.
Proof.
  induction old as [|a old IH]; simpl; [reflexivity|].
  destruct (ascii_dec a a); [exact IH | congruence].
Qed.

Lemma startswith_inv (old x : str) :
  startswith old x = true -> exists r, x = old ++ r.
Proof.
  revert x. induction old as [|a old IH]; intros x H.
  - now exists x.
  - destruct x as [|b x]; simpl in H; [discriminate|].
    destruct (ascii_dec a b) as [->|]; [|discriminate].
    destruct (IH _ H) as [r ->]. now exists r.
Qed.

Lemma startswith_refl (old : str) : startswith old old = true.
Proof. rewrite <- (app_nil_r old) at 2. apply startswith_app. Qed.

Lemma occurs_head (old x : str) : startswith old x = true -> occurs old x = true.
Proof. intros H. destruct x; simpl; simpl in H; now rewrite H. Qed.

Lemma occurs_refl (old : str) : occurs old old = true.
Proof. apply occurs_head, startswith_refl. Qed.

Lemma replace_from_skip (old new a x : str) :
  replace_from old new (length a) (a ++ x) = replace_from old new 0 x.
Proof.
  induction a as [|c a IH]; simpl; [|exact IH].
  destruct x; reflexivity.
Qed.

Lemma replace_nil (old new : str) : old <> [] -> replace old new [] = [].
Proof. destruct old; [congruence | reflexivity]. Qed.

Lemma replace_hit (old new r : str) :
  old <> [] -> replace old new (old ++ r) = new ++ replace old new r.
Proof.
  destruct old as [|a old]; [congruence|]. intros _.
  unfold replace. change ((a :: old) ++ r) with (a :: (old ++ r)).
  cbn [replace_from]. change (a :: old ++ r) with ((a :: old) ++ r).
  rewrite startswith_app.
  replace (length (a :: old) - 1) with (length old) by (simpl; lia).
  now rewrite replace_from_skip.
Qed.

Lemma replace_miss (old new : str) (c : ascii) (x : str) :
  old <> [] -> startswith old (c :: x) = false ->
  replace old new (c :: x) = c :: replace old new x.
Proof.
  destruct old as [|a old]; [congruence|]. intros _ H.
  unfold replace. cbn [replace_from]. now rewrite H.
Qed.

(** The scan of [replace], as an induction principle. *)
Lemma scan_ind (old : str) (P : str -> Prop) :
  old <> [] ->
  P [] ->
  (forall r, P r -> P (old ++ r)) ->
  (forall c x, startswith old (c :: x) = false -> P x -> P (c :: x)) ->
  forall x, P x.
Proof.
  intros Hold Hnil Hhit Hmiss x.
  remember (length x) as n eqn:Hn. revert x Hn.
  induction n as [n IH] using lt_wf_ind. intros x Hn.
  destruct x as [|c x]; [exact Hnil|].
  destruct (startswith old (c :: x)) eqn:E.
  - destruct (startswith_inv _ _ E) as [r Hr]. rewrite Hr. apply Hhit.
    apply (IH (length r)); [|reflexivity].
    subst n. rewrite Hr, length_app.
    destruct old; [congruence | simpl; lia].
  - apply Hmiss; [exact E|]. apply (IH (length x)); [subst n; simpl; lia | reflexivity].
Qed.

Lemma replace_noop (old new x : str) :
  old <> [] -> occurs old x = false -> replace old new x = x.
Proof.
  intros Hold. induction x as [|c x IH]; intros H.
  - now apply replace_nil.
  - simpl in H. apply orb_false_iff in H. destruct H as [H1 H2].
    rewrite replace_miss by assumption. now rewrite IH.
Qed.

Lemma replace_self (old new : str) : old <> [] -> replace old new old = new.
Proof.
  intros Hold. rewrite <- (app_nil_r old) at 2.
  rewrite replace_hit, replace_nil by assumption. apply app_nil_r.
Qed.

Lemma replace_same (old x : str) : old <> [] -> replace old old x = x.
Proof.
  intros Hold. revert x. apply (scan_ind old); [assumption| | |].
  - now apply replace_nil.
  - intros r IH. rewrite replace_hit by assumption. now f_equal.
  - intros c x E IH. rewrite replace_miss by assumption. now f_equal.
Qed.

(** ** Digits and boundaries *)

Lemma last_app_nonempty (x y : str) (d : ascii) :
  y <> [] -> last (x ++ y) d = last y d.
Proof.
  intros Hy. induction x as [|c x IH]; [reflexivity|].
  simpl. destruct (x ++ y) eqn:E; [|exact IH].
  apply app_eq_nil in E. destruct E; congruence.
Qed.

Lemma ends_nondigit_app (x y : str) :
  y <> [] -> ends_nondigit (x ++ y) = ends_nondigit y.
Proof. intros Hy. unfold ends_nondigit. now rewrite last_app_nonempty. Qed.

Lemma all_digits_app (a b : str) :
  all_digits (a ++ b) = all_digits a && all_digits b.
Proof. apply forallb_app. Qed.

Lemma all_digits_last (x : str) :
  all_digits x = true -> x <> [] -> ends_nondigit x = false.
Proof.
  intros H Hx. destruct (exists_last Hx) as [x' [c ->]].
  rewrite all_digits_app in H. apply andb_true_iff in H. destruct H as [_ H].
  simpl in H. rewrite andb_true_r in H.
  unfold ends_nondigit. now rewrite last_last, H.
Qed.

Lemma all_digits_hd (x : str) :
  all_digits x = true -> x <> [] -> starts_nondigit x = false.
Proof.
  destruct x as [|c x]; [congruence|]. simpl. intros H _.
  apply andb_true_iff in H. unfold starts_nondigit. simpl. now destruct H as [-> _].
Qed.

Lemma boundary_nil_l (b : str) : boundary [] b = true.
Proof. reflexivity. Qed.

Lemma boundary_drop (u r b : str) :
  boundary (u ++ r) b = true -> boundary r b = true.
Proof.
  destruct r as [|c r]; [reflexivity|].
  unfold boundary. now rewrite ends_nondigit_app.
Qed.

Lemma boundary_tail (c : ascii) (x b : str) :
  boundary (c :: x) b = true -> boundary x b = true.
Proof. apply (boundary_drop [c]). Qed.

Lemma boundary_ends (a b : str) : ends_nondigit a = true -> boundary a b = true.
Proof. unfold boundary. now intros ->. Qed.

Lemma boundary_starts (a b : str) : starts_nondigit b = true -> boundary a b = true.
Proof. unfold boundary. intros ->. apply orb_true_r. Qed.

(** An occurrence of a numeral cannot straddle a boundary. *)
Lemma no_straddle (old a b : str) :
  all_digits old = true -> a <> [] -> boundary a b = true ->
  startswith old (a ++ b) = true -> startswith old a = true.
Proof.
  intros Hd Ha Hb H.
  destruct (startswith_inv _ _ H) as [r Hr].
  apply app_eq_app in Hr. destruct Hr as [l [[-> ->] | [-> ->]]].
  - apply startswith_app.
  - destruct l as [|d l]; [rewrite app_nil_r; apply startswith_refl|].
    exfalso. rewrite all_digits_app in Hd. apply andb_true_iff in Hd.
    destruct Hd as [Hda Hdl].
    unfold boundary in Hb. rewrite (all_digits_last a Hda Ha) in Hb.
    change ((d :: l) ++ r) with (d :: (l ++ r)) in Hb.
    unfold starts_nondigit in Hb. simpl in Hb, Hdl.
    apply andb_true_iff in Hdl. destruct Hdl as [Hdd _].
    rewrite Hdd in Hb. discriminate.
Qed.

Lemma startswith_weaken (old a b : str) :
  startswith old a = true -> startswith old (a ++ b) = true.
Proof.
  intros H. destruct (startswith_inv _ _ H) as [r ->].
  rewrite <- app_assoc. apply startswith_app.
Qed.

(** Replacing a numeral distributes over a boundary. *)
Lemma replace_app (old new a b : str) :
  all_digits old = true -> old <> [] -> boundary a b = true ->
  replace old new (a ++ b) = replace old new a ++ replace old new b.
Proof.
  intros Hd Hold. revert a.
  apply (scan_ind old (fun a => boundary a b = true ->
    replace old new (a ++ b) = replace old new a ++ replace old new b));
    [assumption| | |].
  - intros _. now rewrite replace_nil.
  - intros r IH Hb. rewrite <- app_assoc, !replace_hit by assumption.
    rewrite <- app_assoc. f_equal. apply IH. now apply boundary_drop in Hb.
  - intros c x E IH Hb.
    change ((c :: x) ++ b) with (c :: (x ++ b)).
    destruct (startswith old (c :: (x ++ b))) eqn:E2.
    + apply (no_straddle old (c :: x) b) in E2; [congruence|assumption|discriminate|assumption].
    + rewrite !replace_miss by assumption. simpl. f_equal.
      apply IH. now apply boundary_tail in Hb.
Qed.

Lemma replace_nondigit (old new : str) (c : ascii) :
  all_digits old = true -> old <> [] -> is_digit c = false ->
  replace old new [c] = [c].
Proof.
  intros Hd Hold Hc. apply replace_noop; [assumption|].
  destruct old as [|a old]; [congruence|].
  simpl in Hd. apply andb_true_iff in Hd. destruct Hd as [Ha _].
  simpl. destruct (ascii_dec a c) as [->|]; [congruence|].
  destruct old; reflexivity.
Qed.

Lemma ends_nondigit_replace (old new x : str) :
  all_digits old = true -> old <> [] ->
  ends_nondigit x = true -> ends_nondigit (replace old new x) = true.
Proof.
  intros Hd Hold H. destruct x as [|c0 x0] eqn:Ex; [now rewrite replace_nil|].
  rewrite <- Ex in *. assert (Hx : x <> []) by (subst; discriminate).
  destruct (exists_last Hx) as [x' [c Hc]]. rewrite Hc in *.
  rewrite ends_nondigit_app in H by discriminate.
  assert (Hcd : is_digit c = false).
  { unfold ends_nondigit in H. simpl in H. now destruct (is_digit c). }
  rewrite replace_app; try assumption.
  - rewrite replace_nondigit by assumption.
    rewrite ends_nondigit_app by discriminate.
    unfold ends_nondigit. simpl. now rewrite Hcd.
  - apply boundary_starts. unfold starts_nondigit. simpl. now rewrite Hcd.
Qed.

Lemma starts_nondigit_replace (old new x : str) :
  all_digits old = true -> old <> [] ->
  starts_nondigit x = true -> starts_nondigit (replace old new x) = true.
Proof.
  intros Hd Hold H. destruct x as [|c x]; [now rewrite replace_nil|].
  assert (Hcd : is_digit c = false).
  { unfold starts_nondigit in H. simpl in H. now destruct (is_digit c). }
  change (c :: x) with ([c] ++ x).
  rewrite replace_app; try assumption.
  - rewrite replace_nondigit by assumption.
    unfold starts_nondigit. simpl. now rewrite Hcd.
  - apply boundary_ends. unfold ends_nondigit. simpl. now rewrite Hcd.
Qed.

Lemma replace_digit_free (old new x : str) :
  all_digits old = true -> old <> [] -> digit_free x = true ->
  replace old new x = x.
Proof.
  intros Hd Hold. induction x as [|c x IH]; intros H.
  - now apply replace_nil.
  - simpl in H. apply andb_true_iff in H. destruct H as [Hc Hx].
    apply negb_true_iff in Hc.
    change (c :: x) with ([c] ++ x). rewrite replace_app; try assumption.
    + rewrite replace_nondigit by assumption. simpl. f_equal. now apply IH.
    + apply boundary_ends. unfold ends_nondigit. simpl. now rewrite Hc.
Qed.

(** ** The candidates found by the regular expression *)

Lemma leading_digits_prefix (x : str) :
  exists r, x = leading_digits x ++ r /\ starts_nondigit r = true.
Proof.
  induction x as [|c x [r [IH1 IH2]]]; [now exists []|].
  simpl. destruct (is_digit c) eqn:E.
  - exists r. split; [simpl; now f_equal | assumption].
  - exists (c :: x). split; [reflexivity|].
    unfold starts_nondigit. simpl. now rewrite E.
Qed.

Lemma leading_digits_all (x : str) : all_digits (leading_digits x) = true.
Proof.
  induction x as [|c x IH]; [reflexivity|].
  simpl. destruct (is_digit c) eqn:E; [|reflexivity]. simpl. now rewrite E.
Qed.

Lemma leading_digits_length (x : str) : length (leading_digits x) <= length x.
Proof.
  induction x as [|c x IH]; [simpl; lia|].
  simpl. destruct (is_digit c); simpl; lia.
Qed.

Lemma leading_digits_run (r x : str) :
  all_digits r = true -> starts_nondigit x = true ->
  leading_digits (r ++ x) = r.
Proof.
  intros Hr Hx. induction r as [|c r IH].
  - destruct x as [|c x]; [reflexivity|].
    unfold starts_nondigit in Hx. simpl in *. now destruct (is_digit c).
  - simpl in *. apply andb_true_iff in Hr. destruct Hr as [-> Hr]. f_equal. auto.
Qed.

Lemma leading_digits_app (a b : str) :
  a <> [] -> boundary a b = true ->
  leading_digits (a ++ b) = leading_digits a.
Proof.
  induction a as [|c a IH]; [congruence|]. intros _ Hb.
  simpl. destruct (is_digit c) eqn:E; [|reflexivity]. f_equal.
  destruct a as [|c' a].
  - unfold boundary, ends_nondigit in Hb. simpl in Hb. rewrite E in Hb. simpl in Hb.
    apply (leading_digits_run [] b); [reflexivity | assumption].
  - apply IH; [discriminate|]. now apply boundary_tail in Hb.
Qed.

Lemma findall_from_skip (a x : str) :
  findall_from (length a) (a ++ x) = findall x.
Proof.
  induction a as [|c a IH]; simpl; [|exact IH]. reflexivity.
Qed.

Lemma findall_hit (x : str) :
  let n := Nat.min 5 (length (leading_digits x)) in
  4 <= n -> findall x = firstn n x :: findall (skipn n x).
Proof.
  intros n Hn. subst n.
  pose proof (leading_digits_length x) as Hl.
  destruct x as [|c x]; [simpl in Hn; lia|].
  unfold findall at 1. cbn [findall_from].
  remember (Nat.min 5 (length (leading_digits (c :: x)))) as n eqn:En.
  apply Nat.leb_le in Hn as Hb. rewrite Hb. f_equal.
  destruct n as [|n]; [lia|].
  replace (S n - 1) with n by lia. cbn [skipn].
  rewrite <- (firstn_skipn n x) at 1.
  assert (Hlen : length (firstn n x) = n).
  { rewrite length_firstn. change (length (c :: x)) with (S (length x)) in Hl. lia. }
  rewrite <- Hlen at 1. apply findall_from_skip.
Qed.

Lemma findall_miss (c : ascii) (x : str) :
  length (leading_digits (c :: x)) < 4 -> findall (c :: x) = findall x.
Proof.
  intros H. unfold findall at 1. cbn [findall_from].
  replace (4 <=? Nat.min 5 (length (leading_digits (c :: x)))) with false;
    [reflexivity|].
  symmetry. apply Nat.leb_gt. lia.
Qed.

(** The scan of [findall], as an induction principle. *)
Lemma findall_scan_ind (P : str -> Prop) :
  P [] ->
  (forall x n, n = Nat.min 5 (length (leading_digits x)) -> 4 <= n ->
     P (skipn n x) -> P x) ->
  (forall c x, length (leading_digits (c :: x)) < 4 -> P x -> P (c :: x)) ->
  forall x, P x.
Proof.
  intros Hnil Hhit Hmiss x.
  remember (length x) as k eqn:Hk. revert x Hk.
  induction k as [k IH] using lt_wf_ind. intros x Hk.
  destruct x as [|c x]; [exact Hnil|].
  destruct (le_lt_dec 4 (Nat.min 5 (length (leading_digits (c :: x))))) as [H|H].
  - eapply Hhit; [reflexivity | exact H |].
    apply (IH (length (skipn (Nat.min 5 (length (leading_digits (c :: x)))) (c :: x))));
      [|reflexivity].
    rewrite length_skipn. subst k. change (length (c :: x)) with (S (length x)). lia.
  - apply Hmiss; [lia|]. apply (IH (length x)); [subst k; simpl; lia | reflexivity].
Qed.

Lemma firstn_leading (n : nat) (x : str) :
  n <= length (leading_digits x) ->
  firstn n x = firstn n (leading_digits x).
Proof.
  intros H. destruct (leading_digits_prefix x) as [r [Hx _]].
  rewrite Hx at 1. rewrite firstn_app.
  replace (n - length (leading_digits x)) with 0 by lia.
  simpl. apply app_nil_r.
Qed.

(** Every candidate is a numeral of four or five digits. *)
Lemma findall_numerals (x m : str) :
  In m (findall x) -> all_digits m = true /\ 4 <= length m <= 5.
Proof.
  revert x. apply (findall_scan_ind (fun x => In m (findall x) ->
    all_digits m = true /\ 4 <= length m <= 5)).
  - intros [].
  - intros x n Hn H4 IH Hin. subst n. rewrite findall_hit in Hin by assumption.
    destruct Hin as [<- | Hin]; [|auto].
    rewrite firstn_leading by lia. split.
    + pose proof (leading_digits_all x) as Ha.
      rewrite <- (firstn_skipn (Nat.min 5 (length (leading_digits x))) (leading_digits x)) in Ha.
      rewrite all_digits_app in Ha. now apply andb_true_iff in Ha.
    + rewrite length_firstn. lia.
  - intros c x Hlt IH Hin. rewrite findall_miss in Hin by assumption. auto.
Qed.

Lemma findall_nonempty (x m : str) : In m (findall x) -> m <> [].
Proof.
  intros H. apply findall_numerals in H. destruct H as [_ H].
  destruct m; [simpl in H; lia | discriminate].
Qed.

Lemma findall_app (a b : str) :
  boundary a b = true -> findall (a ++ b) = findall a ++ findall b.
Proof.
  revert a. apply (findall_scan_ind (fun a => boundary a b = true ->
    findall (a ++ b) = findall a ++ findall b)).
  - reflexivity.
  - intros x n Hn H4 IH Hb.
    assert (Hx : x <> []) by (intros ->; simpl in Hn; lia).
    pose proof (leading_digits_length x) as Hl.
    rewrite (findall_hit x) by (rewrite <- Hn; exact H4).
    rewrite (findall_hit (x ++ b)) by (rewrite leading_digits_app, <- Hn; assumption).
    rewrite leading_digits_app by assumption. rewrite <- Hn.
    rewrite firstn_app, skipn_app. replace (n - length x) with 0 by lia.
    simpl. rewrite app_nil_r. apply f_equal. apply IH.
    rewrite <- (firstn_skipn n x) in Hb. now apply boundary_drop in Hb.
  - intros c x Hlt IH Hb.
    change ((c :: x) ++ b) with (c :: (x ++ b)).
    rewrite (findall_miss c x) by assumption.
    rewrite findall_miss.
    + apply IH. now apply boundary_tail in Hb.
    + change (c :: (x ++ b)) with ((c :: x) ++ b).
      rewrite leading_digits_app; [assumption | discriminate | assumption].
Qed.

Lemma findall_short (x : str) : length x < 4 -> findall x = [].
Proof.
  induction x as [|c x IH]; [reflexivity|]. intros H.
  rewrite findall_miss.
  - apply IH. simpl in H. lia.
  - pose proof (leading_digits_length (c :: x)). lia.
Qed.

Lemma findall_digit_free (x : str) : digit_free x = true -> findall x = [].
Proof.
  induction x as [|c x IH]; [reflexivity|]. intros H.
  simpl in H. apply andb_true_iff in H. destruct H as [Hc Hx].
  apply negb_true_iff in Hc.
  rewrite findall_miss; [auto|]. simpl. rewrite Hc. simpl. lia.
Qed.

Lemma leading_digits_id (r : str) : all_digits r = true -> leading_digits r = r.
Proof.
  intros H. rewrite <- (app_nil_r r) at 1. now apply leading_digits_run.
Qed.

(** A whole run of digits is cut into [chunks]. *)
Lemma findall_run (r : str) : all_digits r = true -> findall r = chunks r.
Proof.
  remember (length r) as k eqn:Hk. revert r Hk.
  induction k as [k IH] using lt_wf_ind. intros r Hk Hr.
  destruct r as [|a [|b [|c [|d [|e r]]]]];
    try (rewrite findall_short by (simpl; lia); reflexivity).
  - rewrite findall_hit; rewrite leading_digits_id by assumption; simpl; [reflexivity | lia].
  - rewrite findall_hit; rewrite leading_digits_id by assumption; [|simpl; lia].
    simpl Nat.min. cbn [firstn skipn chunks]. f_equal.
    apply (IH (length r)); [subst k; simpl; lia | reflexivity |].
    change (a :: b :: c :: d :: e :: r) with ([a; b; c; d; e] ++ r) in Hr.
    rewrite all_digits_app in Hr. now apply andb_true_iff in Hr.
Qed.

Lemma chunks_numeral (p : str) : 4 <= length p <= 5 -> chunks p = [p].
Proof.
  intros H. destruct p as [|a [|b [|c [|d [|e [|f p]]]]]]; simpl in H; try lia; reflexivity.
Qed.

Lemma findall_numeral (p : str) :
  all_digits p = true -> 4 <= length p <= 5 -> findall p = [p].
Proof. intros Hd Hl. rewrite findall_run by assumption. now apply chunks_numeral. Qed.

(** A numeral between two boundaries is found as it stands. *)
Lemma findall_around (pre p post : str) :
  all_digits p = true -> 4 <= length p <= 5 ->
  ends_nondigit pre = true -> starts_nondigit post = true ->
  findall (pre ++ p ++ post) = findall pre ++ p :: findall post.
Proof.
  intros Hd Hl Hpre Hpost.
  rewrite (findall_app pre (p ++ post)) by (apply boundary_ends; exact Hpre).
  rewrite (findall_app p post) by (apply boundary_starts; exact Hpost).
  rewrite (findall_numeral p) by assumption. reflexivity.
Qed.

(** ** Port renumbering *)

Lemma in_port_range_nonempty (m : str) :
  in_port_range (int_of m) = true -> m <> [].
Proof. intros H ->. discriminate. Qed.

Lemma adjust_port_app (offset : Z) (a b m : str) :
  all_digits m = true -> boundary a b = true ->
  adjust_port offset (a ++ b) m = adjust_port offset a m ++ adjust_port offset b m.
Proof.
  intros Hd Hb. unfold adjust_port.
  destruct (in_port_range (int_of m)) eqn:E; [|reflexivity].
  apply replace_app; [assumption | now apply in_port_range_nonempty | assumption].
Qed.

Lemma ends_nondigit_adjust_port (offset : Z) (x m : str) :
  all_digits m = true -> ends_nondigit x = true ->
  ends_nondigit (adjust_port offset x m) = true.
Proof.
  intros Hd Hx. unfold adjust_port.
  destruct (in_port_range (int_of m)) eqn:E; [|assumption].
  apply ends_nondigit_replace; [assumption | now apply in_port_range_nonempty | assumption].
Qed.

Lemma starts_nondigit_adjust_port (offset : Z) (x m : str) :
  all_digits m = true -> starts_nondigit x = true ->
  starts_nondigit (adjust_port offset x m) = true.
Proof.
  intros Hd Hx. unfold adjust_port.
  destruct (in_port_range (int_of m)) eqn:E; [|assumption].
  apply starts_nondigit_replace; [assumption | now apply in_port_range_nonempty | assumption].
Qed.

Lemma ends_nondigit_adjust_ports (offset : Z) (ports : list str) (x : str) :
  Forall (fun m => all_digits m = true) ports -> ends_nondigit x = true ->
  ends_nondigit (adjust_ports offset ports x) = true.
Proof.
  intros HF. revert x. induction HF as [|m ports Hm _ IH]; intros x Hx; [assumption|].
  simpl. apply IH. now apply ends_nondigit_adjust_port.
Qed.

Lemma starts_nondigit_adjust_ports (offset : Z) (ports : list str) (x : str) :
  Forall (fun m => all_digits m = true) ports -> starts_nondigit x = true ->
  starts_nondigit (adjust_ports offset ports x) = true.
Proof.
  intros HF. revert x. induction HF as [|m ports Hm _ IH]; intros x Hx; [assumption|].
  simpl. apply IH. now apply starts_nondigit_adjust_port.
Qed.

(** The successive replacements act separately on a delimited middle part
    and on what surrounds it. *)
Lemma adjust_ports_around (offset : Z) (ports : list str) (pre mid post : str) :
  Forall (fun m => all_digits m = true) ports ->
  ends_nondigit pre = true -> starts_nondigit post = true ->
  adjust_ports offset ports (pre ++ mid ++ post)
  = adjust_ports offset ports pre ++ adjust_ports offset ports mid
    ++ adjust_ports offset ports post.
Proof.
  intros HF. revert pre mid post.
  induction HF as [|m ports Hm _ IH]; intros pre mid post Hpre Hpost; [reflexivity|].
  simpl.
  rewrite (adjust_port_app offset pre (mid ++ post)) by (auto using boundary_ends).
  rewrite (adjust_port_app offset mid post) by (auto using boundary_starts).
  apply IH.
  - now apply ends_nondigit_adjust_port.
  - now apply starts_nondigit_adjust_port.
Qed.

Lemma findall_all_digits (x : str) :
  Forall (fun m => all_digits m = true) (findall x).
Proof. apply Forall_forall. intros m H. now apply findall_numerals in H. Qed.

Lemma adjust_port_digit_free (offset : Z) (x m : str) :
  all_digits m = true -> digit_free x = true -> adjust_port offset x m = x.
Proof.
  intros Hd Hx. unfold adjust_port.
  destruct (in_port_range (int_of m)) eqn:E; [|reflexivity].
  apply replace_digit_free; [assumption | now apply in_port_range_nonempty | assumption].
Qed.

Lemma adjust_ports_digit_free (offset : Z) (ports : list str) (x : str) :
  Forall (fun m => all_digits m = true) ports -> digit_free x = true ->
  adjust_ports offset ports x = x.
Proof.
  intros HF Hx. induction HF as [|m ports Hm _ IH]; [reflexivity|].
  simpl. now rewrite adjust_port_digit_free.
Qed.

Lemma digit_free_ends (x : str) : digit_free x = true -> ends_nondigit x = true.
Proof.
  intros H. destruct x as [|c0 x0] eqn:Ex; [reflexivity|]. rewrite <- Ex in *.
  assert (Hx : x <> []) by (subst; discriminate).
  destruct (exists_last Hx) as [x' [c Hc]]. rewrite Hc in *.
  unfold digit_free in H. rewrite forallb_app in H.
  apply andb_true_iff in H. destruct H as [_ H]. simpl in H.
  rewrite andb_true_r in H. unfold ends_nondigit. now rewrite last_last.
Qed.

Lemma digit_free_starts (x : str) : digit_free x = true -> starts_nondigit x = true.
Proof.
  destruct x as [|c x]; [reflexivity|]. simpl. intros H.
  apply andb_true_iff in H. now destruct H.
Qed.

(** *** What becomes of one numeral *)

Lemma collision_free_cons (p q m : str) (l : list str) :
  collision_free p q (m :: l) = collision_free p q [m] && collision_free p q l.
Proof. unfold collision_free. simpl. now rewrite andb_true_r. Qed.

Lemma collision_free_app (p q : str) (l1 l2 : list str) :
  collision_free p q (l1 ++ l2) = collision_free p q l1 && collision_free p q l2.
Proof. apply forallb_app. Qed.

Section Fate.
Variable offset : Z.
Variable p : str.
Hypothesis p_in_range : in_port_range (int_of p) = true.

Let q : str := numeral_port offset p.

Lemma adjust_port_own : adjust_port offset p p = q.
Proof.
  unfold adjust_port. rewrite p_in_range.
  apply replace_self. now apply in_port_range_nonempty.
Qed.

Lemma adjust_port_on_new (m : str) :
  collision_free p q [m] = true -> adjust_port offset q m = q.
Proof.
  unfold collision_free. simpl. rewrite andb_true_r. intros H.
  unfold adjust_port. destruct (in_port_range (int_of m)) eqn:E; [|reflexivity].
  apply andb_true_iff in H. destruct H as [H1 H2].
  destruct (occurs m q) eqn:Eo.
  - simpl in H2. apply str_eqb_eq in H2.
    rewrite H2 in Eo. rewrite Eo in H1. simpl in H1. apply str_eqb_eq in H1.
    subst m. fold (numeral_port offset p). fold q. rewrite H2.
    apply replace_same. now apply in_port_range_nonempty.
  - apply replace_noop; [now apply in_port_range_nonempty | assumption].
Qed.

Lemma adjust_port_on_old (m : str) :
  collision_free p q [m] = true ->
  adjust_port offset p m = p \/ (adjust_port offset p m = q /\ m = p).
Proof.
  unfold collision_free. simpl. rewrite andb_true_r. intros H.
  unfold adjust_port at 1. destruct (in_port_range (int_of m)) eqn:E; [|now left].
  apply andb_true_iff in H. destruct H as [H1 _].
  destruct (occurs m p) eqn:Eo.
  - simpl in H1. apply str_eqb_eq in H1. right. split; [|assumption].
    rewrite H1. apply adjust_port_own.
  - left. apply replace_noop; [now apply in_port_range_nonempty | assumption].
Qed.

Lemma adjust_ports_on_new (l : list str) :
  collision_free p q l = true -> adjust_ports offset l q = q.
Proof.
  induction l as [|m l IH]; [reflexivity|].
  rewrite collision_free_cons. intros H. apply andb_true_iff in H.
  destruct H as [H1 H2]. simpl. rewrite adjust_port_on_new by assumption. auto.
Qed.

Lemma adjust_ports_on_old (l : list str) :
  collision_free p q l = true ->
  adjust_ports offset l p = p \/ (adjust_ports offset l p = q /\ In p l).
Proof.
  induction l as [|m l IH]; [now left|].
  rewrite collision_free_cons. intros H. apply andb_true_iff in H.
  destruct H as [H1 H2]. simpl.
  destruct (adjust_port_on_old m H1) as [-> | [-> ->]].
  - destruct (IH H2) as [E | [E Hin]]; [now left | right; auto].
  - right. split; [now apply adjust_ports_on_new | now left].
Qed.

(** Among candidates free of collisions with it, the numeral ends up
    replaced by its shifted value. *)
Lemma numeral_fate (before after : list str) :
  collision_free p q (before ++ after) = true ->
  adjust_ports offset (before ++ p :: after) p = q.
Proof.
  rewrite collision_free_app. intros H. apply andb_true_iff in H.
  destruct H as [Hb Ha].
  unfold adjust_ports. rewrite fold_left_app. simpl.
  fold (adjust_ports offset before p).
  fold (adjust_ports offset after
          (adjust_port offset (adjust_ports offset before p) p)).
  destruct (adjust_ports_on_old before Hb) as [-> | [-> Hin]].
  - rewrite adjust_port_own. now apply adjust_ports_on_new.
  - rewrite adjust_port_on_new; [now apply adjust_ports_on_new|].
    unfold collision_free in *. rewrite forallb_forall in Hb.
    simpl. rewrite andb_true_r. now apply Hb.
Qed.
End Fate.

(** ** Decimal representations *)

Lemma str_of_inj (a b : Z) : str_of a = str_of b -> a = b.
Proof.
  unfold str_of. intros H.
  apply (f_equal string_of_list_ascii) in H.
  rewrite !string_of_list_ascii_of_string in H.
  apply (f_equal DecimalString.NilEmpty.int_of_string) in H.
  rewrite !DecimalString.NilEmpty.isi in H.
  injection H as H. apply (f_equal Z.of_int) in H.
  now rewrite !DecimalZ.of_to in H.
Qed.

Lemma port_numerals_ok :
  forallb (fun k => port_numeral_ok (4000 + Z.of_nat k)) (seq 0 2001) = true.
Proof. vm_compute. reflexivity. Qed.

(** The values of the window are printed as four-digit numerals that read
    back as themselves. *)
Lemma str_of_port (n : Z) :
  in_port_range n = true ->
  all_digits (str_of n) = true /\ length (str_of n) = 4 /\ int_of (str_of n) = n.
Proof.
  intros H. unfold in_port_range in H. apply andb_true_iff in H.
  destruct H as [H1 H2]. apply Z.leb_le in H1, H2.
  pose proof port_numerals_ok as Hall. rewrite forallb_forall in Hall.
  specialize (Hall (Z.to_nat (n - 4000))).
  replace (4000 + Z.of_nat (Z.to_nat (n - 4000)))%Z with n in Hall by lia.
  assert (Hin : In (Z.to_nat (n - 4000)) (seq 0 2001)) by (apply in_seq; lia).
  apply Hall in Hin. unfold port_numeral_ok in Hin.
  apply andb_true_iff in Hin. destruct Hin as [Hin H3].
  apply andb_true_iff in Hin. destruct Hin as [H4 H5].
  apply Nat.eqb_eq in H5. apply Z.eqb_eq in H3. auto.
Qed.

(** ** The candidates of a line *)

Lemma digit_runs_text (t x : str) :
  digit_free t = true -> digit_runs (t ++ x) = digit_runs x.
Proof.
  induction t as [|c t IH]; [reflexivity|]. simpl. intros H.
  apply andb_true_iff in H. destruct H as [Hc Ht].
  apply negb_true_iff in Hc. rewrite Hc. auto.
Qed.

Lemma digit_runs_run (r rest : str) :
  all_digits r = true -> r <> [] -> starts_nondigit rest = true ->
  digit_runs (r ++ rest) = r :: digit_runs rest.
Proof.
  intros Hr Hne Hrest. induction r as [|c r IH]; [congruence|].
  simpl in Hr. apply andb_true_iff in Hr. destruct Hr as [Hc Hr].
  cbn [app digit_runs]. rewrite Hc. destruct r as [|c' r].
  - simpl app. now rewrite Hrest.
  - rewrite IH by (assumption || discriminate).
    replace (starts_nondigit ((c' :: r) ++ rest)) with false; [reflexivity|].
    symmetry. simpl in Hr. apply andb_true_iff in Hr.
    unfold starts_nondigit. simpl. now destruct Hr as [-> _].
Qed.

Lemma findall_by_runs (line : str) :
  findall line = flat_map chunks (digit_runs line).
Proof.
  remember (length line) as k eqn:Hk. revert line Hk.
  induction k as [k IH] using lt_wf_ind. intros line Hk.
  destruct line as [|c x]; [reflexivity|].
  destruct (is_digit c) eqn:Ec.
  - destruct (leading_digits_prefix (c :: x)) as [rest [Hx Hrest]].
    pose proof (leading_digits_all (c :: x)) as Hall.
    assert (Hne : leading_digits (c :: x) <> []) by (simpl; rewrite Ec; discriminate).
    remember (leading_digits (c :: x)) as r eqn:Er. clear Er.
    assert (Hlen : length rest < k).
    { subst k. rewrite Hx, length_app. destruct r; [congruence | simpl; lia]. }
    rewrite Hx.
    rewrite findall_app by now apply boundary_starts.
    rewrite digit_runs_run by assumption.
    rewrite findall_run by assumption. simpl. f_equal.
    now apply (IH (length rest)).
  - rewrite findall_miss by (simpl; rewrite Ec; simpl; lia).
    simpl. rewrite Ec. apply (IH (length x)); [subst k; simpl; lia | reflexivity].
Qed.

(** C3 (as the code has it).  The candidates for renumbering are the pieces
    into which the expression cuts the maximal runs of digits of the line,
    from the left: five digits at a time, and four when exactly four are
    left.  A run of fewer than four digits yields nothing, a run of four or
    five digits yields itself, and a run of six or more digits yields its
    first five digits followed by the pieces of the rest. *)
Theorem candidates_are_pieces_of_runs :
  (forall line, findall line = flat_map chunks (digit_runs line))
  /\ (forall run, length run < 4 -> chunks run = [])
  /\ (forall run, length run = 4 \/ length run = 5 -> chunks run = [run])
  /\ (forall run, 6 <= length run ->
        chunks run = firstn 5 run :: chunks (skipn 5 run)).
Proof.
  split; [exact findall_by_runs|]. split; [|split].
  - intros [|a [|b [|c [|d r]]]] H; simpl in H; try lia; reflexivity.
  - intros run H. apply chunks_numeral. lia.
  - intros [|a [|b [|c [|d [|e [|f r]]]]]] H; simpl in H; try lia; reflexivity.
Qed.

Lemma candidates_are_pieces_of_runs_witness :
  chunks (lit "4500") = [lit "4500"] /\ chunks (lit "123") = [].
Proof.
  destruct candidates_are_pieces_of_runs as [_ [H3 [H45 _]]]. split.
  - apply H45. left. reflexivity.
  - apply H3. simpl. lia.
Defined.

(** C3 fails for longer runs: the six digits of [id=123456] form one maximal
    run, and the first five of them are a candidate. *)
Lemma six_digit_run_has_candidate :
  digit_runs (lit "id=123456") = [lit "123456"]
  /\ findall (lit "id=123456") = [lit "12345"]
  /\ ~ In (lit "12345") (digit_runs (lit "id=123456")).
Proof.
  split; [reflexivity|]. split; [reflexivity|].
  intros [H | []]. discriminate H.
Qed.

(** ** String substitution *)

Lemma substitute_app (items1 items2 : list (str * str)) (line : str) :
  substitute (items1 ++ items2) line = substitute items2 (substitute items1 line).
Proof. apply fold_left_app. Qed.

(** C4.  The pairs are applied one after the other, in order, each to the
    result of the previous ones; with [dev -> prod] followed by
    [prod -> live], the [prod] written by the first pair is rewritten by the
    second one. *)
Theorem substitution_is_sequential :
  (forall old new rest line,
      substitute ((old, new) :: rest) line = substitute rest (replace old new line))
  /\ (forall items1 items2 line,
      substitute (items1 ++ items2) line
      = substitute items2 (substitute items1 line))
  /\ (exists old1 new1 old2 new2 line,
      occurs old2 new1 = true
      /\ occurs old2 line = false
      /\ substitute [(old1, new1)] line = lit "env=prod"
      /\ substitute [(old1, new1); (old2, new2)] line = lit "env=live"
      /\ modify_line (mkEnvRules [(old1, new1); (old2, new2)] 0) line
         = lit "env=live").
Proof.
  split; [reflexivity|]. split; [exact substitute_app|].
  exists (lit "dev"), (lit "prod"), (lit "prod"), (lit "live"), (lit "env=dev").
  repeat split; reflexivity.
Qed.

(** ** Renumbering, numeral by numeral *)

(** C2.  Let the line, once the string replacements are made, read
    [pre ++ p ++ post] where [p] is a maximal run of four or five digits
    whose value lies in [4000, 6000].  If no other candidate of the line
    collides with [p] or with its replacement, the rewritten line has the
    decimal representation of the value plus [port_offset] where [p] stood,
    between what the same replacements make of [pre] and of [post], and it
    is still delimited there. *)
Theorem port_renumbered_in_place :
  forall (env_rules : EnvRules) (line pre p post : str),
    substitute (replace_items env_rules) line = pre ++ p ++ post ->
    all_digits p = true -> 4 <= length p <= 5 ->
    ends_nondigit pre = true -> starts_nondigit post = true ->
    in_port_range (int_of p) = true ->
    collision_free p (numeral_port (port_offset env_rules) p)
                   (findall pre ++ findall post) = true ->
    let ports := findall (pre ++ p ++ post) in
    let pre' := adjust_ports (port_offset env_rules) ports pre in
    let post' := adjust_ports (port_offset env_rules) ports post in
    modify_line env_rules line
    = pre' ++ str_of (int_of p + port_offset env_rules) ++ post'
    /\ ends_nondigit pre' = true /\ starts_nondigit post' = true.
Proof.
  intros env_rules line pre p post Hline Hd Hl Hpre Hpost Hr Hfree ports pre' post'.
  pose proof (findall_all_digits (pre ++ p ++ post)) as HF. fold ports in HF.
  split; [|split].
  - unfold modify_line. rewrite Hline. fold ports.
    rewrite adjust_ports_around by assumption. fold pre' post'.
    f_equal. f_equal. unfold ports.
    rewrite findall_around by assumption.
    now apply numeral_fate.
  - now apply ends_nondigit_adjust_ports.
  - now apply starts_nondigit_adjust_ports.
Qed.

Lemma port_renumbered_in_place_witness :
  modify_line (mkEnvRules [(lit "dev", lit "prod")] 100)
              (lit "env=dev port=4500 alt=5000 id=123")
  = lit "env=prod port=4600 alt=5100 id=123".
Proof.
  apply (port_renumbered_in_place
           (mkEnvRules [(lit "dev", lit "prod")] 100)
           (lit "env=dev port=4500 alt=5000 id=123")
           (lit "env=prod port=") (lit "4500") (lit " alt=5000 id=123"));
    try reflexivity.
  simpl; lia.
Defined.

(** C10 (as the code has it).  Let the line, once the string replacements
    are made, hold the numeral [p] twice, each time as a maximal run.  If no
    other candidate of the line collides with [p] or with its replacement,
    and if moreover [p] does not occur inside its own replacement (unless
    the replacement is [p] itself), then both occurrences are replaced by
    the value plus [port_offset], added once. *)
Theorem repeated_numeral_shifted_once :
  forall (env_rules : EnvRules) (line pre p mid post : str),
    substitute (replace_items env_rules) line = pre ++ p ++ mid ++ p ++ post ->
    all_digits p = true -> 4 <= length p <= 5 ->
    in_port_range (int_of p) = true ->
    ends_nondigit pre = true ->
    mid <> [] -> starts_nondigit mid = true -> ends_nondigit mid = true ->
    starts_nondigit post = true ->
    collision_free p (numeral_port (port_offset env_rules) p)
                   (findall pre ++ findall mid ++ findall post) = true ->
    (occurs p (numeral_port (port_offset env_rules) p) = true ->
     numeral_port (port_offset env_rules) p = p) ->
    let ports := findall (pre ++ p ++ mid ++ p ++ post) in
    let shifted := str_of (int_of p + port_offset env_rules) in
    modify_line env_rules line
    = adjust_ports (port_offset env_rules) ports pre ++ shifted
      ++ adjust_ports (port_offset env_rules) ports mid ++ shifted
      ++ adjust_ports (port_offset env_rules) ports post.
Proof.
  intros env_rules line pre p mid post Hline Hd Hl Hr Hpre Hmid Hmid1 Hmid2 Hpost
    Hfree Hown ports shifted.
  set (q := numeral_port (port_offset env_rules) p) in *.
  pose proof (findall_all_digits (pre ++ p ++ mid ++ p ++ post)) as HF. fold ports in HF.
  assert (Hstart : starts_nondigit (mid ++ p ++ post) = true).
  { destruct mid; [congruence | exact Hmid1]. }
  assert (Hports : ports = findall pre ++ p :: findall mid ++ p :: findall post).
  { unfold ports. rewrite findall_around by assumption.
    now rewrite findall_around by assumption. }
  assert (Hp : collision_free p q [p] = true).
  { unfold collision_free. simpl. rewrite Hr, occurs_refl, str_eqb_refl. simpl.
    rewrite andb_true_r. destruct (occurs p q) eqn:E; [|reflexivity].
    simpl. apply str_eqb_eq. now apply Hown. }
  rewrite !collision_free_app in Hfree.
  apply andb_true_iff in Hfree. destruct Hfree as [F1 Hfree].
  apply andb_true_iff in Hfree. destruct Hfree as [F2 F3].
  assert (Hfate : adjust_ports (port_offset env_rules) ports p = shifted).
  { rewrite Hports. apply numeral_fate; [assumption|]. fold q.
    rewrite !collision_free_app, (collision_free_cons _ _ p).
    now rewrite F1, F2, F3, Hp. }
  unfold modify_line. rewrite Hline. fold ports.
  rewrite adjust_ports_around by assumption. rewrite Hfate.
  rewrite adjust_ports_around by assumption. now rewrite Hfate.
Qed.

Lemma repeated_numeral_shifted_once_witness :
  modify_line (mkEnvRules [] 100) (lit "a=4500,b=4500;")
  = lit "a=4600,b=4600;".
Proof.
  apply (repeated_numeral_shifted_once (mkEnvRules [] 100)
           (lit "a=4500,b=4500;")
           (lit "a=") (lit "4500") (lit ",b=") (lit ";"));
    try reflexivity.
  - simpl; lia.
  - discriminate.
  - discriminate.
Defined.

(** C10 fails when the numeral occurs inside its own replacement: with an
    offset of 10000, [4500] becomes [14500], where the second replacement of
    [4500] finds it again. *)
Lemma repeated_numeral_compounds :
  modify_line (mkEnvRules [] 10000) (lit "a=4500,b=4500")
  = lit "a=114500,b=114500"
  /\ modify_line (mkEnvRules [] 10000) (lit "a=4500,b=4500")
     <> lit "a=14500,b=14500".
Proof. split; [reflexivity | discriminate]. Qed.

(** ** Rewriting twice *)

Lemma single_numeral_line (offset : Z) (pre p post : str) :
  digit_free pre = true -> digit_free post = true ->
  all_digits p = true -> 4 <= length p <= 5 ->
  in_port_range (int_of p) = true ->
  modify_line (mkEnvRules [] offset) (pre ++ p ++ post)
  = pre ++ str_of (int_of p + offset) ++ post.
Proof.
  intros Hpre Hpost Hd Hl Hr.
  unfold modify_line. simpl.
  pose proof (findall_all_digits (pre ++ p ++ post)) as HF.
  rewrite adjust_ports_around
    by auto using digit_free_ends, digit_free_starts.
  rewrite (adjust_ports_digit_free offset _ pre) by assumption.
  rewrite (adjust_ports_digit_free offset _ post) by assumption.
  f_equal. f_equal.
  rewrite findall_around by auto using digit_free_ends, digit_free_starts.
  rewrite !findall_digit_free by assumption.
  apply (numeral_fate offset p Hr [] []). reflexivity.
Qed.

Lemma renumbered_in_place (env_rules : EnvRules) (line pre p post : str) :
  substitute (replace_items env_rules) line = pre ++ p ++ post ->
  all_digits p = true -> 4 <= length p <= 5 ->
  ends_nondigit pre = true -> starts_nondigit post = true ->
  in_port_range (int_of p) = true ->
  collision_free p (numeral_port (port_offset env_rules) p)
                 (findall pre ++ findall post) = true ->
  modify_line env_rules line
  = adjust_ports (port_offset env_rules) (findall (pre ++ p ++ post)) pre
    ++ str_of (int_of p + port_offset env_rules)
    ++ adjust_ports (port_offset env_rules) (findall (pre ++ p ++ post)) post
  /\ ends_nondigit
       (adjust_ports (port_offset env_rules) (findall (pre ++ p ++ post)) pre)
     = true
  /\ starts_nondigit
       (adjust_ports (port_offset env_rules) (findall (pre ++ p ++ post)) post)
     = true.
Proof.
  intros Hline Hd Hl Hpre Hpost Hr Hfree.
  pose proof (findall_all_digits (pre ++ p ++ post)) as HF.
  split; [|split].
  - unfold modify_line. rewrite Hline.
    rewrite adjust_ports_around by assumption.
    f_equal. f_equal.
    rewrite findall_around by assumption.
    now apply numeral_fate.
  - now apply ends_nondigit_adjust_ports.
  - now apply starts_nondigit_adjust_ports.
Qed.

(** C5 (as the code has it).  The rewrite is not idempotent: a file holding
    [port=4500], rewritten with offset 100, holds [port=4600] after one pass
    and [port=4700] after two.  A value shifted once and still in the
    window is shifted again by a second pass under these conditions: in the
    first pass the numeral is a maximal run free of collisions; the string
    replacements leave the once-rewritten line as it is; and the shifted
    numeral is free of collisions in the once-rewritten line.  In
    particular, without string replacements and on a line whose only digits
    are that numeral, the two passes differ as soon as the offset is not
    zero. *)
Theorem rewrite_not_idempotent :
  (exists env_rules text,
      port_offset env_rules <> 0%Z
      /\ modify_text env_rules (modify_text env_rules text)
         <> modify_text env_rules text)
  /\ (forall (env_rules : EnvRules) (line pre p post : str),
        let offset := port_offset env_rules in
        let shifted := str_of (int_of p + offset) in
        let ports := findall (pre ++ p ++ post) in
        let pre1 := adjust_ports offset ports pre in
        let post1 := adjust_ports offset ports post in
        let once := modify_line env_rules line in
        substitute (replace_items env_rules) line = pre ++ p ++ post ->
        all_digits p = true -> 4 <= length p <= 5 ->
        ends_nondigit pre = true -> starts_nondigit post = true ->
        in_port_range (int_of p) = true ->
        collision_free p shifted (findall pre ++ findall post) = true ->
        in_port_range (int_of p + offset) = true ->
        substitute (replace_items env_rules) once = once ->
        collision_free shifted (numeral_port offset shifted)
                       (findall pre1 ++ findall post1) = true ->
        let ports2 := findall (pre1 ++ shifted ++ post1) in
        once = pre1 ++ shifted ++ post1
        /\ modify_line env_rules once
           = adjust_ports offset ports2 pre1
             ++ str_of (int_of p + offset + offset)
             ++ adjust_ports offset ports2 post1)
  /\ (forall (offset : Z) (pre p post : str),
        digit_free pre = true -> digit_free post = true ->
        all_digits p = true -> 4 <= length p <= 5 ->
        in_port_range (int_of p) = true ->
        in_port_range (int_of p + offset) = true ->
        let env_rules := mkEnvRules [] offset in
        let once := modify_line env_rules (pre ++ p ++ post) in
        let twice := modify_line env_rules once in
        once = pre ++ str_of (int_of p + offset) ++ post
        /\ twice = pre ++ str_of (int_of p + offset + offset) ++ post
        /\ (offset <> 0%Z -> twice <> once)).
Proof.
  split; [|split].
  - exists (mkEnvRules [] 100), (lit "port=4500"). split; discriminate.
  - intros env_rules line pre p post offset shifted ports pre1 post1 once
      Hline Hd Hl Hpre Hpost Hr Hfree Hr2 Hkeep Hfree2 ports2.
    destruct (renumbered_in_place env_rules line pre p post
                Hline Hd Hl Hpre Hpost Hr Hfree) as [Honce [Hpre1 Hpost1]].
    fold offset ports in Honce, Hpre1, Hpost1.
    fold pre1 in Honce, Hpre1. fold post1 in Honce, Hpost1.
    fold shifted once in Honce.
    destruct (str_of_port _ Hr2) as [Q1 [Q2 Q3]]. fold shifted in Q1, Q2, Q3.
    split; [exact Honce|].
    assert (Hline2 : substitute (replace_items env_rules) once
                     = pre1 ++ shifted ++ post1) by now rewrite Hkeep.
    assert (Hr3 : in_port_range (int_of shifted) = true) by now rewrite Q3.
    assert (Hl2 : 4 <= length shifted <= 5) by lia.
    destruct (renumbered_in_place env_rules once pre1 shifted post1
                Hline2 Q1 Hl2 Hpre1 Hpost1 Hr3 Hfree2) as [Htwice _].
    fold offset ports2 in Htwice. now rewrite Q3 in Htwice.
  - intros offset pre p post Hpre Hpost Hd Hl Hr Hr2 env_rules once twice.
    assert (Honce : once = pre ++ str_of (int_of p + offset) ++ post)
      by now apply single_numeral_line.
    destruct (str_of_port _ Hr2) as [Q1 [Q2 Q3]].
    assert (Htwice : twice = pre ++ str_of (int_of p + offset + offset) ++ post).
    { unfold twice. rewrite Honce. unfold env_rules.
      rewrite single_numeral_line; try assumption; [|lia|congruence].
      now rewrite Q3. }
    split; [assumption|]. split; [assumption|].
    intros Hoff E. rewrite Honce, Htwice in E.
    apply app_inv_head, app_inv_tail, str_of_inj in E. lia.
Qed.

Lemma rewrite_not_idempotent_witness :
  let env_rules := mkEnvRules [(lit "dev", lit "prod")] 100 in
  modify_line env_rules (lit "env=dev port=4500 alt=5000")
  = lit "env=prod port=4600 alt=5100"
  /\ modify_line env_rules
       (modify_line env_rules (lit "env=dev port=4500 alt=5000"))
     = lit "env=prod port=4700 alt=5200".
Proof.
  destruct rewrite_not_idempotent as [_ [H _]].
  apply (H (mkEnvRules [(lit "dev", lit "prod")] 100)
           (lit "env=dev port=4500 alt=5000")
           (lit "env=prod port=") (lit "4500") (lit " alt=5000"));
    try reflexivity.
  simpl; lia.
Defined.

(** C5 fails as stated: a value shifted once and still in the window need
    not be shifted again.  With the replacement [4600 -> 4500] and offset
    100, [port=4500] reads [port=4600] after one pass and after two, the
    second pass first undoing the shift; and in [id=0450012] the candidate
    [04500] becomes [4600] inside [460012], whose only candidate [46001] is
    outside the window. *)
Lemma shifted_value_not_shifted_again :
  (let env_rules := mkEnvRules [(lit "4600", lit "4500")] 100 in
   modify_text env_rules (lit "port=4500") = lit "port=4600"
   /\ in_port_range 4600 = true
   /\ modify_text env_rules (modify_text env_rules (lit "port=4500"))
      = lit "port=4600"
   /\ modify_text env_rules (modify_text env_rules (lit "port=4500"))
      <> lit "port=4700")
  /\ (let env_rules := mkEnvRules [] 100 in
      modify_text env_rules (lit "id=0450012") = lit "id=460012"
      /\ modify_text env_rules (modify_text env_rules (lit "id=0450012"))
         = lit "id=460012").
Proof. repeat split; try reflexivity. discriminate. Qed.

(** ** Looking entries up *)

Lemma find_entry_in (name : str) (es : list (str * node)) :
  In name (names es) -> exists c, find_entry name es = Some c.
Proof.
  induction es as [|[k c] es IH]; [intros []|].
  simpl. destruct (str_eqb k name) eqn:E; [now exists c|].
  intros [H | H]; [|auto]. apply str_eqb_eq in H. congruence.
Qed.

Lemma find_entry_some (name : str) (es : list (str * node)) (c : node) :
  find_entry name es = Some c -> In name (names es).
Proof.
  induction es as [|[k c'] es IH]; [discriminate|].
  simpl. destruct (str_eqb k name) eqn:E; [|auto].
  apply str_eqb_eq in E. now left.
Qed.

Lemma lookup_join (n : node) (p : path) (name : str) :
  lookup n (join p name)
  = match lookup n p with
    | Some (Dir _ es) => find_entry name es
    | _ => None
    end.
Proof.
  unfold join. revert n. induction p as [|a p IH]; intros n.
  - simpl. destruct n as [|t es]; [reflexivity|]. now destruct (find_entry name es).
  - simpl. destruct n as [|t es]; [reflexivity|].
    destruct (find_entry a es); [apply IH | reflexivity].
Qed.

Lemma dict_get_none {A} (key : str) (d : list (str * A)) :
  ~ In key (map fst d) -> dict_get key d = None.
Proof.
  induction d as [|[k v] d IH]; [reflexivity|]. simpl. intros H.
  destruct (str_eqb k key) eqn:E.
  - apply str_eqb_eq in E. tauto.
  - apply IH. tauto.
Qed.

(** ** The latest version *)

Lemma max_by_spec {A} (key : A -> Z) (best : A) (l : list A) :
  In (max_by key best l) (best :: l)
  /\ forall x, In x (best :: l) -> (key x <= key (max_by key best l))%Z.
Proof.
  revert best. induction l as [|y l IH]; intros best.
  - simpl. split; [now left|]. intros x [<- | []]. lia.
  - simpl. destruct (key best <? key y)%Z eqn:E.
    + apply Z.ltb_lt in E. destruct (IH y) as [H1 H2]. split.
      * right. exact H1.
      * intros x [<- | Hx]; [|now apply H2].
        specialize (H2 y (or_introl eq_refl)). lia.
    + apply Z.ltb_ge in E. destruct (IH best) as [H1 H2]. split.
      * destruct H1 as [H1 | H1]; [now left | right; now right].
      * intros x [<- | [<- | Hx]].
        -- apply H2. now left.
        -- specialize (H2 best (or_introl eq_refl)). lia.
        -- apply H2. now right.
Qed.

(** C7.  On a server root that is a directory, the resolver either raises
    [FileNotFoundError], exactly when no immediate entry of the root is a
    directory, or returns one of the immediate entries that are directories,
    whose creation time is not exceeded by that of any other; in both cases
    the world is left as it was. *)
Theorem latest_version_is_newest_subdirectory :
  forall (w : world) (server_path : path) (t : Z) (es : list (str * node)),
    lookup (fs w) server_path = Some (Dir t es) ->
    let subdir d := isdir (fs w) (join server_path d) = true in
    let r := get_latest_version_path server_path w in
    snd r = w
    /\ (fst r = inl FileNotFoundError <-> forall d, ~ subdir d)
    /\ ((exists d, subdir d) ->
        exists d, fst r = inr (join server_path d)
                  /\ In d (names es) /\ subdir d
                  /\ forall d', subdir d' ->
                       (getctime (fs w) (join server_path d')
                        <= getctime (fs w) (join server_path d))%Z).
Proof.
  intros w server_path t es Hroot subdir r.
  assert (Hnames : forall d, subdir d -> In d (names es)).
  { intros d H. unfold subdir, isdir in H. rewrite lookup_join, Hroot in H.
    destruct (find_entry d es) eqn:E; [|discriminate].
    now apply find_entry_some in E. }
  assert (Hsub : forall d, subdir d <->
            In d (filter (fun d => isdir (fs w) (join server_path d)) (names es))).
  { intros d. rewrite filter_In. unfold subdir. split; [|tauto].
    intros H. split; [now apply Hnames | exact H]. }
  unfold r, get_latest_version_path, listdir, bind, get_fs. rewrite Hroot.
  unfold ret. cbn [fst snd].
  destruct (filter (fun d => isdir (fs w) (join server_path d)) (names es))
    as [|d ds] eqn:Ef; cbn [map].
  - unfold raise. cbn [fst snd]. split; [reflexivity|]. split.
    + split; [|reflexivity]. intros _ d Hd. now apply Hsub in Hd.
    + intros [d Hd]. now apply Hsub in Hd.
  - cbn [fst snd]. split; [reflexivity|]. split.
    + split; [discriminate|]. intros H. exfalso. apply (H d), Hsub. now left.
    + intros _.
      destruct (max_by_spec (getctime (fs w)) (join server_path d)
                            (map (join server_path) ds)) as [Hin Hmax].
      change (join server_path d :: map (join server_path) ds)
        with (map (join server_path) (d :: ds)) in Hin, Hmax.
      apply in_map_iff in Hin. destruct Hin as [d0 [Hd0 Hin0]].
      exists d0. rewrite Hd0. split; [reflexivity|].
      assert (Hs0 : subdir d0) by (apply Hsub; exact Hin0).
      split; [|split; [exact Hs0|]].
      * now apply Hnames.
      * intros d' Hd'. apply Hmax, in_map, Hsub, Hd'.
Qed.

Lemma latest_version_witness :
  lookup (fs example_world) (server_path api1)
  = Some (Dir 1
            [(lit "3.6.0", Dir 5 [(lit "app.ini", File (lit "port=4400"))]);
             (lit "3.7.0",
              Dir 7
                [(lit "app.ini", File (lit "port=4500"));
                 (lit "conf",
                  Dir 8
                    [(lit "Env.INI", File (lit "env=dev
alt=5000
"));
                     (lit "readme.txt", File (lit "port=4500"))])]);
             (lit "notes.txt", File (lit "latest is 3.7.0"))])
  /\ snd (get_latest_version_path (server_path api1) example_world)
     = example_world.
Proof.
  split; [reflexivity|].
  apply (latest_version_is_newest_subdirectory
           example_world (server_path api1) 1 _ eq_refl).
Defined.

(** ** One server *)

(** C8.  When the server root has an entry named as the target version, the
    server is reported as skipped and [process_server] returns normally:
    nothing is copied, and the file system is the same afterwards. *)
Theorem existing_version_is_skipped :
  forall (w : world) (server : ServerEntry) (new_version : str)
         (env_rules : EnvRules) (t : Z) (es : list (str * node)),
    lookup (fs w) (server_path server) = Some (Dir t es) ->
    In new_version (names es) ->
    process_server server new_version env_rules w
    = (inr tt,
       mkWorld (fs w) (clock w)
               (out w ++ [MsgProcessing (server_name server);
                          MsgVersionExists new_version (server_path server)])).
Proof.
  intros w server new_version env_rules t es Hroot Hin.
  destruct (find_entry_in _ _ Hin) as [c Hc].
  unfold process_server, version_exists, bind, print, get_fs, ret.
  cbn [fs clock out]. unfold path_exists. rewrite Hroot. cbn [negb].
  rewrite lookup_join. cbn [fs clock out]. rewrite Hroot, Hc. cbn [fs clock out].
  now rewrite <- app_assoc.
Qed.

Lemma existing_version_is_skipped_witness :
  process_server api1 (lit "3.7.0") (mkEnvRules [] 100) example_world
  = (inr tt,
     mkWorld example_fs 100
             [MsgProcessing (lit "api1");
              MsgVersionExists (lit "3.7.0") [lit "srv"; lit "api1"]]).
Proof.
  apply (existing_version_is_skipped
           example_world api1 (lit "3.7.0") (mkEnvRules [] 100) 1 _ eq_refl).
  simpl. right. left. reflexivity.
Defined.

(** ** The whole run *)

(** C6.  When the environment label, trimmed and put in upper case, is not
    a key of the rules, [main] prints its message and returns: no server is
    processed and the file system is the same afterwards. *)
Theorem invalid_environment_aborts :
  forall (w : world) (version_answer environment_answer : str)
         (servers : list ServerEntry) (env_rules_data : list (str * EnvRules)),
    ~ In (upper (strip environment_answer)) (map fst env_rules_data) ->
    main version_answer environment_answer (Some servers) (Some env_rules_data) w
    = (inr tt,
       mkWorld (fs w) (clock w) (out w ++ [MsgBanner; MsgInvalidEnvironment])).
Proof.
  intros w version_answer environment_answer servers env_rules_data Hkey.
  unfold main, bind, print, load_json, ret. cbn [fs clock out].
  rewrite (dict_get_none _ _ Hkey). cbn [fs clock out].
  now rewrite <- app_assoc.
Qed.

Lemma invalid_environment_aborts_witness :
  main (lit "3.8.0") (lit " c ") (Some [api1; api2]) (Some example_rules)
       example_world
  = (inr tt, mkWorld example_fs 100 [MsgBanner; MsgInvalidEnvironment]).
Proof.
  apply (invalid_environment_aborts
           example_world (lit "3.8.0") (lit " c ") [api1; api2] example_rules).
  simpl. intros [H | [H | []]]; discriminate H.
Defined.

Lemma for_each_app {A} (l1 l2 : list A) (body : A -> M unit) (w : world) :
  for_each (l1 ++ l2) body w = (for_each l1 body ;; for_each l2 body) w.
Proof.
  revert w. induction l1 as [|x l1 IH]; intros w; [reflexivity|].
  simpl. unfold bind. destruct (body x w) as [[e | []] w']; [reflexivity|].
  rewrite IH. reflexivity.
Qed.

Lemma for_each_raises {A} (before after : list A) (x : A) (body : A -> M unit)
    (w w1 w2 : world) (e : exn) :
  for_each before body w = (inr tt, w1) ->
  body x w1 = (inl e, w2) ->
  for_each (before ++ x :: after) body w = (inl e, w2).
Proof.
  intros Hb Hx. rewrite for_each_app. unfold bind at 1. rewrite Hb.
  simpl. unfold bind. now rewrite Hx.
Qed.

(** C1 (as the code has it).  Nothing in the loop catches exceptions: when
    the servers before [srv] are processed normally and processing [srv]
    raises, [main] stops with that exception in the world that [srv] left,
    whatever servers come after it; none of them is processed. *)
Theorem failure_ends_the_run :
  forall (w w1 w2 : world) (version_answer environment_answer : str)
         (before after : list ServerEntry) (srv : ServerEntry)
         (env_rules_data : list (str * EnvRules)) (env_rules : EnvRules)
         (e : exn),
    dict_get (upper (strip environment_answer)) env_rules_data = Some env_rules ->
    for_each before
      (fun s => process_server s (strip version_answer) env_rules)
      (mkWorld (fs w) (clock w)
               (out w ++ [MsgBanner; MsgFound (length (before ++ srv :: after))]))
    = (inr tt, w1) ->
    process_server srv (strip version_answer) env_rules w1 = (inl e, w2) ->
    main version_answer environment_answer
         (Some (before ++ srv :: after)) (Some env_rules_data) w
    = (inl e, w2).
Proof.
  intros w w1 w2 version_answer environment_answer before after srv
    env_rules_data env_rules e Hkey Hbefore Hsrv.
  unfold main, bind, print, load_json, ret. cbn [fs clock out].
  rewrite Hkey. cbn [fs clock out]. rewrite <- app_assoc. cbn [app].
  now rewrite (for_each_raises before after srv _ _ w1 w2 e Hbefore Hsrv).
Qed.

Lemma failure_ends_the_run_witness :
  main (lit "3.8.0") (lit "a") (Some ([] ++ api2 :: [api1]))
       (Some example_rules) example_world
  = (inl FileNotFoundError,
     mkWorld example_fs 100
             [MsgBanner; MsgFound 2; MsgProcessing (lit "api2")]).
Proof.
  apply (failure_ends_the_run
           example_world
           (mkWorld example_fs 100 [MsgBanner; MsgFound 2])
           (mkWorld example_fs 100
                    [MsgBanner; MsgFound 2; MsgProcessing (lit "api2")])
           (lit "3.8.0") (lit "a") [] [api1] api2 example_rules
           (mkEnvRules [(lit "dev", lit "prod")] 100) FileNotFoundError);
    reflexivity.
Defined.

(** C1 fails: [api2] has no version folder, so that processing it raises;
    [api1], which comes next, is never processed, although on its own it
    would have received the new version. *)
Lemma later_server_not_processed :
  let run servers :=
    main (lit "3.8.0") (lit "a") (Some servers) (Some example_rules)
         example_world in
  fst (run [api2; api1]) = inl FileNotFoundError
  /\ out (snd (run [api2; api1]))
     = [MsgBanner; MsgFound 2; MsgProcessing (lit "api2")]
  /\ fs (snd (run [api2; api1])) = example_fs
  /\ path_exists (fs (snd (run [api2; api1])))
                 (join (server_path api1) (lit "3.8.0")) = false
  /\ fst (run [api1]) = inr tt
  /\ path_exists (fs (snd (run [api1])))
                 (join (server_path api1) (lit "3.8.0")) = true.
Proof. repeat split; reflexivity. Qed.

(** ** Updating the tree *)

Lemma node_forall_ind (P : node -> Prop) :
  (forall text, P (File text)) ->
  (forall t es, Forall (fun e => P (snd e)) es -> P (Dir t es)) ->
  forall n, P n.
Proof.
  intros HF HD. fix IH 1. intros [text | t es]; [apply HF|].
  apply HD. induction es as [|e es IHes]; constructor; [apply IH | exact IHes].
Qed.

Lemma wf_dir_inv (t : Z) (es : list (str * node)) :
  wf_node (Dir t es) = true ->
  NoDup (names es) /\ Forall (fun e => wf_node (snd e) = true) es.
Proof.
  induction es as [|[k c] es IH]; [split; constructor|].
  intros H. change (negb (existsb (str_eqb k) (names es)) && wf_node c
                    && wf_node (Dir t es) = true) in H.
  apply andb_true_iff in H. destruct H as [H H3].
  apply andb_true_iff in H. destruct H as [H1 H2].
  destruct (IH H3) as [N F]. split.
  - simpl. constructor; [|exact N]. intros Hin.
    apply negb_true_iff in H1.
    assert (existsb (str_eqb k) (names es) = true); [|congruence].
    apply existsb_exists. exists k. split; [exact Hin | apply str_eqb_refl].
  - constructor; assumption.
Qed.

Lemma str_eqb_neq (a b : str) : a <> b -> str_eqb a b = false.
Proof.
  intros H. destruct (str_eqb a b) eqn:E; [|reflexivity].
  apply str_eqb_eq in E. congruence.
Qed.

Lemma find_entry_skip (k : str) (a b : list (str * node)) :
  ~ In k (names a) -> find_entry k (a ++ b) = find_entry k b.
Proof.
  induction a as [|[k' c] a IH]; [reflexivity|]. simpl. intros H.
  rewrite str_eqb_neq by tauto. apply IH. tauto.
Qed.

Lemma update_entry_skip (k : str) (g : node -> node) (a b : list (str * node)) :
  ~ In k (names a) -> update_entry k g (a ++ b) = a ++ update_entry k g b.
Proof.
  induction a as [|[k' c] a IH]; [reflexivity|]. simpl. intros H.
  rewrite str_eqb_neq by tauto. f_equal. apply IH. tauto.
Qed.

Lemma update_entry_found (k : str) (f g : node -> node)
    (es : list (str * node)) (c : node) :
  find_entry k es = Some c -> f c = g c ->
  update_entry k f es = update_entry k g es.
Proof.
  intros H E. induction es as [|[k' c'] es IH]; [reflexivity|].
  simpl in *. destruct (str_eqb k' k); [|f_equal; auto].
  injection H as ->. now rewrite E.
Qed.

Lemma update_entry_unchanged (k : str) (f : node -> node)
    (es : list (str * node)) (c : node) :
  find_entry k es = Some c -> f c = c -> update_entry k f es = es.
Proof.
  intros H E. induction es as [|[k' c'] es IH]; [reflexivity|].
  simpl in *. destruct (str_eqb k' k); [|f_equal; auto].
  injection H as ->. now rewrite E.
Qed.

Lemma update_entry_twice (k : str) (f g : node -> node) (es : list (str * node)) :
  update_entry k g (update_entry k f es) = update_entry k (fun c => g (f c)) es.
Proof.
  induction es as [|[k' c'] es IH]; [reflexivity|].
  simpl. destruct (str_eqb k' k) eqn:E; simpl; rewrite E; [reflexivity|].
  now rewrite IH.
Qed.

Lemma find_entry_update (k : str) (f : node -> node) (es : list (str * node)) :
  find_entry k (update_entry k f es) = option_map f (find_entry k es).
Proof.
  induction es as [|[k' c'] es IH]; [reflexivity|].
  simpl. destruct (str_eqb k' k) eqn:E; simpl; rewrite E; [reflexivity|]. exact IH.
Qed.

(** A path that leads somewhere goes through directories. *)
Lemma lookup_cons_inv (n : node) (a : str) (p : path) (x : node) :
  lookup n (a :: p) = Some x ->
  exists t es c, n = Dir t es /\ find_entry a es = Some c /\ lookup c p = Some x.
Proof.
  simpl. destruct n as [|t es]; [discriminate|].
  destruct (find_entry a es) as [c|] eqn:E; [|discriminate].
  intros H. now exists t, es, c.
Qed.

Lemma update_as_put (g : node -> node) (n : node) (p : path) (x : node) :
  lookup n p = Some x -> update g n p = put_at n p (g x).
Proof.
  unfold put_at. revert n. induction p as [|a p IH]; intros n H.
  - simpl in H. injection H as ->. reflexivity.
  - destruct (lookup_cons_inv _ _ _ _ H) as [t [es [c [-> [Hc Hx]]]]].
    simpl. f_equal. apply (update_entry_found _ _ _ _ c Hc). now apply IH.
Qed.

Lemma put_at_join (n : node) (p : path) (k : str) (x : node)
    (t : Z) (es : list (str * node)) :
  lookup n p = Some (Dir t es) ->
  put_at n (join p k) x = put_at n p (Dir t (update_entry k (fun _ => x) es)).
Proof.
  unfold put_at, join. revert n. induction p as [|a p IH]; intros n H.
  - simpl in H. injection H as ->. reflexivity.
  - destruct (lookup_cons_inv _ _ _ _ H) as [t0 [es0 [c [-> [Hc Hx]]]]].
    simpl. f_equal. apply (update_entry_found _ _ _ _ c Hc). now apply IH.
Qed.

Lemma put_at_put_at (n : node) (p : path) (x y x0 : node) :
  lookup n p = Some x0 -> put_at (put_at n p x) p y = put_at n p y.
Proof.
  unfold put_at. revert n. induction p as [|a p IH]; intros n H; [reflexivity|].
  destruct (lookup_cons_inv _ _ _ _ H) as [t0 [es0 [c [-> [Hc Hx]]]]].
  simpl. f_equal. rewrite update_entry_twice.
  apply (update_entry_found _ _ _ _ c Hc). now apply IH.
Qed.

Lemma put_at_same (n : node) (p : path) (x : node) :
  lookup n p = Some x -> put_at n p x = n.
Proof.
  unfold put_at. revert n. induction p as [|a p IH]; intros n H.
  - simpl in H. injection H as ->. reflexivity.
  - destruct (lookup_cons_inv _ _ _ _ H) as [t0 [es0 [c [-> [Hc Hx]]]]].
    simpl. f_equal. apply (update_entry_unchanged _ _ _ c Hc). now apply IH.
Qed.

Lemma lookup_put_at (n : node) (p rel : path) (x x0 : node) :
  lookup n p = Some x0 -> lookup (put_at n p x) (p ++ rel) = lookup x rel.
Proof.
  unfold put_at. revert n. induction p as [|a p IH]; intros n H; [reflexivity|].
  destruct (lookup_cons_inv _ _ _ _ H) as [t0 [es0 [c [-> [Hc Hx]]]]].
  simpl. rewrite find_entry_update, Hc. simpl. now apply IH.
Qed.

Lemma lookup_put_at_here (n : node) (p : path) (x x0 : node) :
  lookup n p = Some x0 -> lookup (put_at n p x) p = Some x.
Proof.
  intros H. rewrite <- (app_nil_r p) at 2. now rewrite (lookup_put_at _ _ _ _ _ H).
Qed.

(** ** The content rewriter, on the disk *)

Lemma names_map_fst (g : str * node -> str * node) (es : list (str * node)) :
  (forall e, fst (g e) = fst e) -> names (map g es) = names es.
Proof.
  intros H. unfold names. rewrite map_map. apply map_ext. exact H.
Qed.

Lemma names_rewrite_file (env_rules : EnvRules) (es : list (str * node)) :
  names (map (rewrite_file env_rules) es) = names es.
Proof. now apply names_map_fst. Qed.

Lemma names_rewrite_entry (env_rules : EnvRules) (es : list (str * node)) :
  names (map (rewrite_entry env_rules) es) = names es.
Proof. now apply names_map_fst. Qed.

Lemma NoDup_names_middle (done todo : list (str * node)) (e : str * node) :
  NoDup (names (done ++ e :: todo)) ->
  ~ In (fst e) (names done) /\ NoDup (names ((done ++ [e]) ++ todo)).
Proof.
  intros H. split.
  - unfold names in *. rewrite map_app in H. simpl in H.
    apply NoDup_remove_2 in H. intros Hin. apply H, in_or_app. now left.
  - now rewrite <- app_assoc.
Qed.

Lemma modify_at (env_rules : EnvRules) (p : path) (text : str)
    (f : node) (c : Z) (o : list message) :
  lookup f p = Some (File text) ->
  modify_ports_and_paths p env_rules (mkWorld f c o)
  = (inr tt, mkWorld (put_at f p (File (modify_text env_rules text))) c o).
Proof.
  intros H. unfold modify_ports_and_paths, bind, get_fs, put_fs.
  cbn [fs clock out]. rewrite H. now rewrite (update_as_put _ _ _ _ H).
Qed.

(** The files of one directory, one after the other. *)
Lemma rewrite_files_here (env_rules : EnvRules) (root : path) (t : Z) :
  forall (todo done : list (str * node)) (f : node) (c : Z) (o : list message),
    lookup f root = Some (Dir t (map (rewrite_file env_rules) done ++ todo)) ->
    NoDup (names (done ++ todo)) ->
    for_each (file_names todo)
      (fun file =>
         if is_ini file
         then modify_ports_and_paths (join root file) env_rules
         else ret tt)
      (mkWorld f c o)
    = (inr tt,
       mkWorld (put_at f root
                  (Dir t (map (rewrite_file env_rules) (done ++ todo)))) c o).
Proof.
  induction todo as [|[k n] todo IH]; intros done f c o Hroot Hnd.
  - simpl. rewrite app_nil_r in *. now rewrite (put_at_same _ _ _ Hroot).
  - destruct (NoDup_names_middle _ _ _ Hnd) as [Hk Hnd'].
    simpl in Hk. rewrite <- (names_rewrite_file env_rules) in Hk.
    replace (done ++ (k, n) :: todo) with ((done ++ [(k, n)]) ++ todo)
      by now rewrite <- app_assoc.
    destruct n as [text | t' es'].
    + change (file_names ((k, File text) :: todo)) with (k :: file_names todo).
      cbn [for_each]. unfold bind at 1.
      destruct (is_ini k) eqn:Ei.
      * assert (Hfile : lookup f (join root k) = Some (File text)).
        { rewrite lookup_join, Hroot, find_entry_skip by assumption.
          simpl. now rewrite str_eqb_refl. }
        rewrite (modify_at _ _ _ _ _ _ Hfile).
        rewrite (put_at_join _ _ _ _ _ _ Hroot).
        rewrite update_entry_skip by assumption.
        simpl update_entry. rewrite str_eqb_refl.
        rewrite IH with (done := done ++ [(k, File text)]).
        -- now rewrite (put_at_put_at _ _ _ _ _ Hroot).
        -- rewrite (lookup_put_at_here _ _ _ _ Hroot).
           rewrite map_app. simpl. unfold rewrite_file at 3. simpl.
           now rewrite Ei, <- app_assoc.
        -- exact Hnd'.
      * unfold ret at 1. apply IH; [|exact Hnd'].
        rewrite Hroot, map_app. simpl. unfold rewrite_file at 3. simpl.
        now rewrite Ei, <- app_assoc.
    + change (file_names ((k, Dir t' es') :: todo)) with (file_names todo).
      apply IH; [|exact Hnd'].
      rewrite Hroot, map_app. simpl. now rewrite <- app_assoc.
Qed.

(** The subdirectories of one directory, one after the other. *)
Lemma rewrite_subdirs (env_rules : EnvRules) (root : path) (t : Z) :
  forall (todo done : list (str * node)) (f : node) (c : Z) (o : list message),
    Forall (fun e =>
      forall root' f' c' o',
        lookup f' root' = Some (snd e) -> wf_node (snd e) = true ->
        for_each (walk_node root' (snd e)) (rewrite_files_of env_rules)
                 (mkWorld f' c' o')
        = (inr tt,
           mkWorld (put_at f' root' (rewrite_tree env_rules (snd e))) c' o'))
      todo ->
    Forall (fun e => wf_node (snd e) = true) todo ->
    lookup f root
    = Some (Dir t (map (rewrite_entry env_rules) done
                   ++ map (rewrite_file env_rules) todo)) ->
    NoDup (names (done ++ todo)) ->
    for_each (flat_map (fun e => walk_node (join root (fst e)) (snd e)) todo)
             (rewrite_files_of env_rules) (mkWorld f c o)
    = (inr tt,
       mkWorld (put_at f root
                  (Dir t (map (rewrite_entry env_rules) (done ++ todo)))) c o).
Proof.
  induction todo as [|[k n] todo IH]; intros done f c o HP Hwf Hroot Hnd.
  - simpl in *. rewrite app_nil_r in *. now rewrite (put_at_same _ _ _ Hroot).
  - destruct (NoDup_names_middle _ _ _ Hnd) as [Hk Hnd'].
    simpl in Hk. rewrite <- (names_rewrite_entry env_rules) in Hk.
    replace (done ++ (k, n) :: todo) with ((done ++ [(k, n)]) ++ todo)
      by now rewrite <- app_assoc.
    inversion HP as [|e l HPe HPl]; subst. inversion Hwf as [|e l Hwe Hwl]; subst.
    cbn [flat_map fst snd]. rewrite for_each_app. unfold bind.
    destruct n as [text | t' es'].
    + cbn [walk_node for_each]. unfold ret at 1.
      apply IH; try assumption.
      rewrite Hroot, map_app. simpl. now rewrite <- app_assoc.
    + assert (Hsub : lookup f (join root k) = Some (Dir t' es')).
      { rewrite lookup_join, Hroot, find_entry_skip by assumption.
        simpl. now rewrite str_eqb_refl. }
      rewrite (HPe _ _ _ _ Hsub Hwe).
      rewrite (put_at_join _ _ _ _ _ _ Hroot).
      rewrite update_entry_skip by assumption.
      simpl update_entry. rewrite str_eqb_refl.
      rewrite IH with (done := done ++ [(k, Dir t' es')]); try assumption.
      * now rewrite (put_at_put_at _ _ _ _ _ Hroot).
      * rewrite (lookup_put_at_here _ _ _ _ Hroot).
        rewrite map_app. simpl. now rewrite <- app_assoc.
Qed.

(** Walking a tree that sits at [root] rewrites it as [rewrite_tree] says. *)
Lemma walk_rewrites (env_rules : EnvRules) :
  forall (n : node) (root : path) (f : node) (c : Z) (o : list message),
    lookup f root = Some n -> wf_node n = true ->
    for_each (walk_node root n) (rewrite_files_of env_rules) (mkWorld f c o)
    = (inr tt, mkWorld (put_at f root (rewrite_tree env_rules n)) c o).
Proof.
  induction n as [text | t es IH] using node_forall_ind;
    intros root f c o Hroot Hwf.
  - simpl. now rewrite (put_at_same _ _ _ Hroot).
  - destruct (wf_dir_inv _ _ Hwf) as [Hnd HF].
    cbn [walk_node for_each]. unfold bind.
    unfold rewrite_files_of at 1. cbn [fst snd].
    rewrite (rewrite_files_here env_rules root t es [] f c o Hroot Hnd).
    cbn [app].
    rewrite (rewrite_subdirs env_rules root t es [] _ c o IH HF).
    + now rewrite (put_at_put_at _ _ _ _ _ Hroot).
    + now rewrite (lookup_put_at_here _ _ _ _ Hroot).
    + exact Hnd.
Qed.

(** A file found in a directory tree is found in the rewritten tree, with
    its text rewritten if its name says so. *)
Lemma lookup_rewrite_tree (env_rules : EnvRules) :
  forall (rel : path) (n : node) (text : str),
    is_dir n = true -> lookup n rel = Some (File text) ->
    lookup (rewrite_tree env_rules n) rel
    = Some (File (if is_ini (basename rel)
                  then modify_text env_rules text else text)).
Proof.
  induction rel as [|k rel IH]; intros n text Hdir H.
  - simpl in H. injection H as ->. discriminate.
  - destruct (lookup_cons_inv _ _ _ _ H) as [t [es [c [-> [Hc Hx]]]]].
    assert (Hfind : find_entry k (map (rewrite_entry env_rules) es)
                    = Some (snd (rewrite_entry env_rules (k, c)))).
    { clear -Hc. induction es as [|[k' c'] es IHes]; [discriminate|].
      simpl in *. destruct (str_eqb k' k) eqn:E; [|auto].
      injection Hc as ->. apply str_eqb_eq in E. now subst. }
    change (rewrite_tree env_rules (Dir t es))
      with (Dir t (map (rewrite_entry env_rules) es)).
    cbn [lookup]. rewrite Hfind. unfold rewrite_entry. cbn [fst snd].
    destruct rel as [|k2 rel].
    + simpl in Hx. injection Hx as ->. reflexivity.
    + destruct c as [text' | t' es']; [discriminate|].
      change (basename (k :: k2 :: rel)) with (basename (k2 :: rel)).
      now apply IH.
Qed.

(** C9.  On a cloned tree, the content rewriter returns normally and leaves
    the tree that [rewrite_tree] describes; in it, every file of the tree
    whose name ends with [.ini], whatever the case, holds its rewritten text,
    and every other file of the tree holds the text it had. *)
Theorem ini_files_rewritten_others_untouched :
  forall (w : world) (version_path : path) (env_rules : EnvRules)
         (t : Z) (es : list (str * node)),
    lookup (fs w) version_path = Some (Dir t es) ->
    wf_node (Dir t es) = true ->
    let r := update_environment_files version_path env_rules w in
    r = (inr tt,
         mkWorld (put_at (fs w) version_path (rewrite_tree env_rules (Dir t es)))
                 (clock w) (out w))
    /\ forall (rel : path) (text : str),
         lookup (fs w) (version_path ++ rel) = Some (File text) ->
         lookup (fs (snd r)) (version_path ++ rel)
         = Some (File (if is_ini (basename rel)
                       then modify_text env_rules text else text)).
Proof.
  intros w version_path env_rules t es Hroot Hwf r.
  assert (Hr : r = (inr tt,
            mkWorld (put_at (fs w) version_path
                       (rewrite_tree env_rules (Dir t es))) (clock w) (out w))).
  { unfold r, update_environment_files, bind, get_fs, walk. rewrite Hroot.
    destruct w as [f c o]. cbn [fs clock out].
    apply (walk_rewrites env_rules (Dir t es) version_path f c o Hroot Hwf). }
  split; [exact Hr|]. intros rel text Hfile. rewrite Hr. cbn [snd fs].
  rewrite (lookup_put_at _ _ _ _ _ Hroot).
  apply lookup_rewrite_tree; [reflexivity|].
  rewrite <- (put_at_same _ _ _ Hroot) in Hfile.
  now rewrite (lookup_put_at _ _ _ _ _ Hroot) in Hfile.
Qed.

Lemma ini_files_rewritten_others_untouched_witness :
  let version_path := [lit "srv"; lit "api1"; lit "3.7.0"] in
  let r := update_environment_files version_path
             (mkEnvRules [(lit "dev", lit "prod")] 100) example_world in
  lookup (fs (snd r)) (version_path ++ [lit "conf"; lit "Env.INI"])
  = Some (File (lit "env=prod
alt=5100
"))
  /\ lookup (fs (snd r)) (version_path ++ [lit "conf"; lit "readme.txt"])
     = Some (File (lit "port=4500")).
Proof.
  destruct (ini_files_rewritten_others_untouched
              example_world [lit "srv"; lit "api1"; lit "3.7.0"]
              (mkEnvRules [(lit "dev", lit "prod")] 100) 7 _ eq_refl eq_refl)
    as [_ H].
  split.
  - exact (H [lit "conf"; lit "Env.INI"] _ eq_refl).
  - exact (H [lit "conf"; lit "readme.txt"] _ eq_refl).
Defined.

(** ** A complete run *)

(** The scenario of one server [api1] whose root holds the single version
    [3.7.0] with [app.ini] reading [port=4500]: with an offset of 100 and
    the target version [3.8.0], the run creates [3.8.0] with [app.ini]
    reading [port=4600], and leaves [3.7.0] as it was. *)
Example single_server_scenario :
  let disk :=
    Dir 0 [(lit "srv",
            Dir 0 [(lit "api1",
                    Dir 1 [(lit "3.7.0",
                            Dir 2 [(lit "app.ini", File (lit "port=4500"))])])])] in
  let r := main (lit "3.8.0") (lit "a") (Some [api1])
                (Some [(lit "A", mkEnvRules [] 100)]) (mkWorld disk 10 []) in
  fst r = inr tt
  /\ lookup (fs (snd r)) [lit "srv"; lit "api1"; lit "3.8.0"; lit "app.ini"]
     = Some (File (lit "port=4600"))
  /\ lookup (fs (snd r)) [lit "srv"; lit "api1"; lit "3.7.0"; lit "app.ini"]
     = Some (File (lit "port=4500"))
  /\ out (snd r)
     = [MsgBanner; MsgFound 1; MsgProcessing (lit "api1");
        MsgCopied (lit "3.7.0") (lit "3.8.0");
        MsgUpdated (lit "api1") (lit "3.8.0"); MsgAllProcessed].
Proof. repeat split; reflexivity. Qed.

(** * Further properties *)

(** ** Candidates and replacements, line by line *)

Lemma occurs_cons (old : str) (c : ascii) (x : str) :
  occurs old x = true -> occurs old (c :: x) = true.
Proof. intros H. simpl. rewrite H. apply orb_true_r. Qed.

Lemma occurs_app_r (old a x : str) :
  occurs old x = true -> occurs old (a ++ x) = true.
Proof.
  intros H. induction a as [|c a IH]; [exact H|]. now apply occurs_cons.
Qed.

Lemma occurs_app_l (old x b : str) :
  occurs old x = true -> occurs old (x ++ b) = true.
Proof.
  induction x as [|c x IH]; intros H.
  - simpl in H. rewrite orb_false_r in H.
    apply occurs_head. now apply (startswith_weaken old [] b).
  - simpl in H. apply orb_true_iff in H. destruct H as [H | H].
    + apply occurs_head. now apply (startswith_weaken old (c :: x) b).
    + change ((c :: x) ++ b) with (c :: (x ++ b)). apply occurs_cons. auto.
Qed.

Lemma int_of_snoc (x : str) (c : ascii) :
  int_of (x ++ [c]) = (10 * int_of x + digit_val c)%Z.
Proof. unfold int_of. now rewrite fold_left_app. Qed.

Lemma digit_val_bounds (c : ascii) :
  is_digit c = true -> (0 <= digit_val c <= 9)%Z.
Proof.
  unfold is_digit, digit_val. intros H. apply andb_true_iff in H.
  destruct H as [H1 H2]. apply Nat.leb_le in H1, H2. lia.
Qed.

Lemma int_of_bounds (x : str) :
  all_digits x = true -> (0 <= int_of x < 10 ^ Z.of_nat (length x))%Z.
Proof.
  induction x as [|c x IH] using rev_ind; intros H.
  - simpl. unfold int_of. simpl. lia.
  - rewrite all_digits_app in H. apply andb_true_iff in H. destruct H as [Hx Hc].
    simpl in Hc. rewrite andb_true_r in Hc.
    rewrite int_of_snoc, length_app. simpl length.
    replace (Z.of_nat (length x + 1)) with (Z.of_nat (length x) + 1)%Z by lia.
    rewrite Z.pow_add_r by lia.
    pose proof (digit_val_bounds c Hc). specialize (IH Hx). lia.
Qed.

(** X1.  Every candidate that [findall] returns is a numeral of four or
    five digits that occurs in the line, so that its value is below
    100000. *)
Theorem candidates_come_from_the_line :
  forall (line m : str),
    In m (findall line) ->
    all_digits m = true /\ 4 <= length m <= 5
    /\ occurs m line = true /\ (0 <= int_of m < 100000)%Z.
Proof.
  intros line m Hin.
  destruct (findall_numerals _ _ Hin) as [Hd Hl].
  split; [exact Hd|]. split; [exact Hl|]. split.
  - revert line Hin. apply (findall_scan_ind (fun line =>
      In m (findall line) -> occurs m line = true)).
    + intros [].
    + intros x n Hn H4 IH Hin. subst n.
      rewrite findall_hit in Hin by assumption.
      pose proof (firstn_skipn (Nat.min 5 (length (leading_digits x))) x) as Hx.
      destruct Hin as [Hm | Hin].
      * rewrite <- Hx, <- Hm. apply occurs_head, startswith_app.
      * rewrite <- Hx. apply occurs_app_r, IH, Hin.
    + intros c x Hlt IH Hin. rewrite findall_miss in Hin by assumption.
      apply occurs_cons. auto.
  - pose proof (int_of_bounds m Hd) as Hb.
    assert (10 ^ Z.of_nat (length m) <= 10 ^ 5)%Z
      by (apply Z.pow_le_mono_r; lia).
    change (10 ^ 5)%Z with 100000%Z in *. lia.
Qed.

Lemma candidates_come_from_the_line_witness :
  occurs (lit "04500") (lit "id=0450012") = true
  /\ (0 <= int_of (lit "04500") < 100000)%Z.
Proof.
  destruct (candidates_come_from_the_line (lit "id=0450012") (lit "04500"))
    as [_ [_ [H1 H2]]].
  - left. reflexivity.
  - split; [exact H1 | exact H2].
Defined.

Lemma adjust_ports_out_of_range (offset : Z) (ports : list str) (line : str) :
  (forall m, In m ports -> in_port_range (int_of m) = false) ->
  adjust_ports offset ports line = line.
Proof.
  induction ports as [|m ports IH]; intros H; [reflexivity|].
  change (adjust_ports offset (m :: ports) line)
    with (adjust_ports offset ports (adjust_port offset line m)).
  assert (Hm : adjust_port offset line m = line)
    by (unfold adjust_port; now rewrite (H m (or_introl eq_refl))).
  rewrite Hm. apply IH. intros m' Hm'. apply H. now right.
Qed.

(** X2.  Numerals outside the window are never renumbered: when no
    candidate of the line, as the string replacements left it, has a value
    in [4000, 6000], the line comes out as the string replacements left
    it, whatever the offset. *)
Theorem values_outside_window_untouched :
  forall (env_rules : EnvRules) (line : str),
    (forall m, In m (findall (substitute (replace_items env_rules) line)) ->
               in_port_range (int_of m) = false) ->
    modify_line env_rules line = substitute (replace_items env_rules) line.
Proof.
  intros env_rules line H. unfold modify_line.
  now apply adjust_ports_out_of_range.
Qed.

Lemma values_outside_window_untouched_witness :
  modify_line (mkEnvRules [(lit "dev", lit "prod")] 100)
              (lit "env=dev port=3999 alt=6001 big=450000 pid=45")
  = lit "env=prod port=3999 alt=6001 big=450000 pid=45".
Proof.
  apply (values_outside_window_untouched
           (mkEnvRules [(lit "dev", lit "prod")] 100)
           (lit "env=dev port=3999 alt=6001 big=450000 pid=45")).
  intros m Hm. simpl in Hm.
  destruct Hm as [<- | [<- | [<- | []]]]; reflexivity.
Defined.

(** X3.  A replacement pair whose key does not occur in the line changes
    nothing: when no key of the mapping occurs in the line (and none is the
    empty string), the string replacements leave the line as it is. *)
Theorem absent_keys_change_nothing :
  forall (items : list (str * str)) (line : str),
    (forall on, In on items -> fst on <> [] /\ occurs (fst on) line = false) ->
    substitute items line = line.
Proof.
  induction items as [|[old new] items IH]; intros line H; [reflexivity|].
  destruct (H (old, new) (or_introl eq_refl)) as [H1 H2]. simpl in H1, H2.
  unfold substitute. cbn [fold_left fst snd].
  rewrite (replace_noop old new line H1 H2).
  apply IH. intros on Hon. apply H. now right.
Qed.

Lemma absent_keys_change_nothing_witness :
  substitute [(lit "dev", lit "prod"); (lit "test", lit "live")]
             (lit "env=stage")
  = lit "env=stage".
Proof.
  apply (absent_keys_change_nothing
           [(lit "dev", lit "prod"); (lit "test", lit "live")] (lit "env=stage")).
  intros on [<- | [<- | []]]; (split; [discriminate | reflexivity]).
Defined.

(** ** Lines *)

Lemma readlines_nil (text : str) : readlines text = [] -> text = [].
Proof.
  destruct text as [|c text]; [reflexivity|]. simpl.
  destruct (ascii_dec c newline); [discriminate|].
  destruct (readlines text); discriminate.
Qed.

Lemma concat_readlines (text : str) : concat (readlines text) = text.
Proof.
  induction text as [|c text IH]; [reflexivity|]. simpl.
  destruct (ascii_dec c newline); [simpl; now rewrite IH|].
  destruct (readlines text) as [|l ls] eqn:E.
  - apply readlines_nil in E. now subst.
  - simpl in *. now rewrite IH.
Qed.

Lemma readlines_nonempty (text : str) :
  Forall (fun l => l <> []) (readlines text).
Proof.
  induction text as [|c text IH]; [constructor|]. simpl.
  destruct (ascii_dec c newline); [constructor; [discriminate | exact IH]|].
  destruct (readlines text) as [|l ls]; constructor; try discriminate.
  - constructor.
  - now inversion IH.
Qed.

(** X4.  Reading the lines of a text and writing them back gives the text
    again.  No line is empty, a line has no newline before its last
    character, and every line but the last one ends with a newline. *)
Theorem lines_round_trip :
  forall (text : str),
    concat (readlines text) = text
    /\ Forall (fun l => l <> [] /\ ~ In newline (removelast l)) (readlines text)
    /\ Forall (fun l => last l space = newline) (removelast (readlines text)).
Proof.
  intros text. split; [apply concat_readlines|].
  induction text as [|c text [IH1 IH2]]; [split; constructor|].
  pose proof (readlines_nonempty text) as Hne. simpl.
  destruct (ascii_dec c newline) as [-> | Hc].
  - split.
    + constructor; [split; [discriminate | intros []] | exact IH1].
    + destruct (readlines text) as [|l ls]; [constructor|].
      constructor; [reflexivity | exact IH2].
  - destruct (readlines text) as [|l ls].
    + split; [|constructor].
      constructor; [split; [discriminate | intros []] | constructor].
    + inversion IH1 as [|l0 ls0 [Hl Hnl] Hrest]; subst.
      split.
      * constructor; [|exact Hrest]. split; [discriminate|].
        destruct l as [|c' l]; [congruence|].
        change (removelast (c :: c' :: l)) with (c :: removelast (c' :: l)).
        intros [H | H]; [congruence | contradiction].
      * destruct ls as [|l' ls]; [constructor|].
        inversion IH2 as [|l0 ls0 Hlast Hrest2]; subst.
        constructor; [|exact Hrest2].
        destruct l as [|c' l]; [congruence | exact Hlast].
Qed.

Lemma readlines_app (a b : str) :
  readlines (a ++ newline :: b) = readlines (a ++ [newline]) ++ readlines b.
Proof.
  induction a as [|c a IH].
  - simpl. destruct (ascii_dec newline newline); [reflexivity | congruence].
  - simpl. destruct (ascii_dec c newline); [simpl; now rewrite IH|].
    rewrite IH.
    destruct (readlines (a ++ [newline])) as [|l ls] eqn:E; [|reflexivity].
    apply readlines_nil in E. now destruct a.
Qed.

(** X5.  The rewrite works line by line: what it makes of a text is what it
    makes of the part up to a newline, followed by what it makes of the
    rest.  No replacement reaches across a line end. *)
Theorem rewrite_is_line_local :
  forall (env_rules : EnvRules) (a b : str),
    modify_text env_rules (a ++ newline :: b)
    = modify_text env_rules (a ++ [newline]) ++ modify_text env_rules b.
Proof.
  intros env_rules a b. unfold modify_text.
  now rewrite readlines_app, map_app, concat_app.
Qed.

(** X6.  A text in which no line holds a key of the replacement mapping and
    no line has a candidate in the window is written back exactly as it was
    read. *)
Theorem nothing_to_rewrite_keeps_text :
  forall (env_rules : EnvRules) (text : str),
    (forall line, In line (readlines text) ->
       (forall on, In on (replace_items env_rules) ->
                   fst on <> [] /\ occurs (fst on) line = false)
       /\ (forall m, In m (findall line) -> in_port_range (int_of m) = false)) ->
    modify_text env_rules text = text.
Proof.
  intros env_rules text H. unfold modify_text.
  rewrite <- (concat_readlines text) at 2. f_equal.
  rewrite <- (map_id (readlines text)) at 2.
  apply map_ext_in. intros line Hline. destruct (H line Hline) as [H1 H2].
  unfold modify_line.
  assert (Hs : substitute (replace_items env_rules) line = line).
  { clear H2. revert H1. generalize (replace_items env_rules).
    induction l as [|[old new] l IH]; intros H1; [reflexivity|].
    destruct (H1 (old, new) (or_introl eq_refl)) as [Ha Hb]. simpl in Ha, Hb.
    unfold substitute. cbn [fold_left fst snd].
    rewrite (replace_noop old new line Ha Hb).
    apply IH. intros on Hon. apply H1. now right. }
  rewrite Hs. clear H1 Hs. revert H2. generalize (findall line) at 1 2.
  intros ports H2. induction ports as [|m ports IH]; [reflexivity|].
  change (adjust_ports (port_offset env_rules) (m :: ports) line)
    with (adjust_ports (port_offset env_rules) ports
            (adjust_port (port_offset env_rules) line m)).
  assert (Hm : adjust_port (port_offset env_rules) line m = line)
    by (unfold adjust_port; now rewrite (H2 m (or_introl eq_refl))).
  rewrite Hm. apply IH. intros m' Hm'. apply H2. now right.
Qed.

Lemma nothing_to_rewrite_keeps_text_witness :
  modify_text (mkEnvRules [(lit "dev", lit "prod")] 100)
              (lit "[server]
env=stage
port=8080
")
  = lit "[server]
env=stage
port=8080
".
Proof.
  apply (nothing_to_rewrite_keeps_text
           (mkEnvRules [(lit "dev", lit "prod")] 100)
           (lit "[server]
env=stage
port=8080
")).
  intros line Hline. simpl in Hline.
  destruct Hline as [<- | [<- | [<- | []]]]; split;
    try (intros on [<- | []]; split; [discriminate | reflexivity]);
    intros m Hm; simpl in Hm; try contradiction;
    destruct Hm as [<- | []]; reflexivity.
Defined.

(** ** File names *)

Lemma endswith_iff (p x : str) :
  endswith p x = true <-> exists stem, x = stem ++ p.
Proof.
  unfold endswith. split.
  - intros H. destruct (startswith_inv _ _ H) as [r Hr].
    exists (rev r). apply (f_equal (@rev ascii)) in Hr.
    now rewrite rev_involutive, rev_app_distr, rev_involutive in Hr.
  - intros [stem ->]. rewrite rev_app_distr. apply startswith_app.
Qed.

(** X7.  A file is taken for an INI file exactly when its name is some stem
    followed by four characters that read [.ini] once put in lower case;
    in particular its name has at least four characters. *)
Theorem ini_names :
  forall (file : str),
    (is_ini file = true <->
     exists stem ext, file = stem ++ ext /\ lower ext = lit ".ini")
    /\ (is_ini file = true -> 4 <= length file).
Proof.
  intros file.
  assert (Hiff : is_ini file = true <->
            exists stem ext, file = stem ++ ext /\ lower ext = lit ".ini").
  { unfold is_ini. rewrite endswith_iff. split.
    - intros [stem' H]. unfold lower in H.
      apply map_eq_app in H. destruct H as [stem [ext [-> [_ Hext]]]].
      now exists stem, ext.
    - intros [stem [ext [-> Hext]]]. exists (lower stem).
      unfold lower in *. now rewrite map_app, Hext. }
  split; [exact Hiff|].
  intros H. apply Hiff in H. destruct H as [stem [ext [-> Hext]]].
  apply (f_equal (@length ascii)) in Hext. unfold lower in Hext.
  rewrite length_map in Hext. rewrite length_app, Hext. simpl. lia.
Qed.

Lemma ini_names_witness :
  is_ini (lit "App.INI") = true /\ 4 <= length (lit "App.INI").
Proof.
  destruct (ini_names (lit "App.INI")) as [[_ H1] H2].
  assert (H : is_ini (lit "App.INI") = true).
  { apply H1. exists (lit "App"), (lit ".INI"). split; reflexivity. }
  split; [exact H | exact (H2 H)].
Defined.

(** ** Choosing the latest version *)

Lemma max_by_first {A} (key : A -> Z) :
  forall (l pre mid : list A) (best : A),
    (forall x, In x pre -> (key x < key best)%Z) ->
    (forall x, In x mid -> (key x <= key best)%Z) ->
    exists l1 l2,
      pre ++ best :: mid ++ l = l1 ++ max_by key best l :: l2
      /\ (forall x, In x l1 -> (key x < key (max_by key best l))%Z)
      /\ (forall x, In x l2 -> (key x <= key (max_by key best l))%Z).
Proof.
  induction l as [|y l IH]; intros pre mid best Hpre Hmid.
  - exists pre, mid. rewrite app_nil_r. auto.
  - simpl. destruct (key best <? key y)%Z eqn:E.
    + apply Z.ltb_lt in E.
      destruct (IH (pre ++ best :: mid) [] y) as [l1 [l2 [H1 H2]]].
      * intros x Hx. apply in_app_or in Hx. destruct Hx as [Hx | [<- | Hx]].
        -- specialize (Hpre x Hx). lia.
        -- exact E.
        -- specialize (Hmid x Hx). lia.
      * intros x [].
      * exists l1, l2. split; [|exact H2]. rewrite <- H1.
        simpl. rewrite <- app_assoc. reflexivity.
    + apply Z.ltb_ge in E.
      destruct (IH pre (mid ++ [y]) best Hpre) as [l1 [l2 [H1 H2]]].
      * intros x Hx. apply in_app_or in Hx. destruct Hx as [Hx | [<- | []]]; auto.
      * exists l1, l2. split; [|exact H2]. rewrite <- H1.
        rewrite <- app_assoc. reflexivity.
Qed.

Lemma get_latest_eq (w : world) (root : path) (t : Z) (es : list (str * node)) :
  lookup (fs w) root = Some (Dir t es) ->
  get_latest_version_path root w
  = (match filter (fun d => isdir (fs w) (join root d)) (names es) with
     | [] => inl FileNotFoundError
     | d :: ds =>
         inr (max_by (getctime (fs w)) (join root d) (map (join root) ds))
     end, w).
Proof.
  intros H. unfold get_latest_version_path, listdir, bind, get_fs. rewrite H.
  unfold ret.
  destruct (filter (fun d => isdir (fs w) (join root d)) (names es));
    reflexivity.
Qed.

(** X8.  Among subdirectories created at the same time, the resolver takes
    the one listed first: the directory it returns is strictly newer than
    every subdirectory listed before it, and at least as new as every one
    listed after it. *)
Theorem latest_version_ties_go_to_the_first :
  forall (w : world) (server_path : path) (t : Z) (es : list (str * node))
         (latest : path),
    lookup (fs w) server_path = Some (Dir t es) ->
    fst (get_latest_version_path server_path w) = inr latest ->
    exists before d after,
      filter (fun d => isdir (fs w) (join server_path d)) (names es)
      = before ++ d :: after
      /\ latest = join server_path d
      /\ (forall d', In d' before ->
            (getctime (fs w) (join server_path d')
             < getctime (fs w) latest)%Z)
      /\ (forall d', In d' after ->
            (getctime (fs w) (join server_path d')
             <= getctime (fs w) latest)%Z).
Proof.
  intros w root t es latest Hroot Hres.
  rewrite (get_latest_eq w root t es Hroot) in Hres. cbn [fst] in Hres.
  destruct (filter (fun d => isdir (fs w) (join root d)) (names es))
    as [|d0 ds]; [discriminate|].
  injection Hres as Hres.
  destruct (max_by_first (getctime (fs w)) (map (join root) ds) [] []
              (join root d0)) as [l1 [l2 [H1 [H2 H3]]]];
    try (intros x []).
  rewrite Hres in H1, H2, H3.
  change ([] ++ join root d0 :: [] ++ map (join root) ds)
    with (map (join root) (d0 :: ds)) in H1.
  apply map_eq_app in H1. destruct H1 as [before [rest [E [Hb Hr]]]].
  apply map_eq_cons in Hr. destruct Hr as [d [after [-> [Hd Ha]]]].
  exists before, d, after. split; [exact E|]. split; [now symmetry|].
  split.
  - intros d' Hd'. apply H2. rewrite <- Hb. now apply in_map.
  - intros d' Hd'. apply H3. rewrite <- Ha. now apply in_map.
Qed.

Lemma latest_version_ties_go_to_the_first_witness :
  exists before d after,
    filter (fun d => isdir (fs tied_world) (join [lit "srv"] d))
           [lit "1.9"; lit "2.0"; lit "2.1"]
    = before ++ d :: after
    /\ [lit "srv"; lit "2.0"] = join [lit "srv"] d
    /\ (forall d', In d' before ->
          (getctime (fs tied_world) (join [lit "srv"] d')
           < getctime (fs tied_world) [lit "srv"; lit "2.0"])%Z)
    /\ (forall d', In d' after ->
          (getctime (fs tied_world) (join [lit "srv"] d')
           <= getctime (fs tied_world) [lit "srv"; lit "2.0"])%Z).
Proof.
  apply (latest_version_ties_go_to_the_first
           tied_world [lit "srv"] 1 _ [lit "srv"; lit "2.0"] eq_refl eq_refl).
Defined.

(** ** One server: the ways out *)

Lemma find_entry_absent (k : str) (es : list (str * node)) :
  ~ In k (names es) -> find_entry k es = None.
Proof.
  intros H. destruct (find_entry k es) eqn:E; [|reflexivity].
  apply find_entry_some in E. contradiction.
Qed.

(** X9.  A server whose configured root does not exist is reported and
    skipped: [process_server] returns normally and the file system is the
    same afterwards. *)
Theorem missing_root_is_skipped :
  forall (w : world) (server : ServerEntry) (new_version : str)
         (env_rules : EnvRules),
    lookup (fs w) (server_path server) = None ->
    process_server server new_version env_rules w
    = (inr tt,
       mkWorld (fs w) (clock w)
               (out w ++ [MsgProcessing (server_name server);
                          MsgPathNotFound (server_path server)])).
Proof.
  intros w server new_version env_rules H.
  unfold process_server, bind, print, get_fs. cbn [fs clock out].
  unfold path_exists. rewrite H. cbn [negb fs clock out].
  now rewrite <- app_assoc.
Qed.

Lemma missing_root_is_skipped_witness :
  process_server (mkServer (lit "gone") [lit "srv"; lit "gone"]) (lit "3.8.0")
                 (mkEnvRules [] 100) example_world
  = (inr tt,
     mkWorld example_fs 100
             [MsgProcessing (lit "gone");
              MsgPathNotFound [lit "srv"; lit "gone"]]).
Proof.
  apply (missing_root_is_skipped
           example_world (mkServer (lit "gone") [lit "srv"; lit "gone"])
           (lit "3.8.0") (mkEnvRules [] 100) eq_refl).
Defined.

(** X10.  For a target version that is a plain name, a server root that
    holds no directory makes [process_server] raise [FileNotFoundError],
    after the announcement only: nothing is copied and the file system is
    the same afterwards. *)
Theorem no_version_folder_raises :
  forall (w : world) (server : ServerEntry) (new_version : str)
         (env_rules : EnvRules) (t : Z) (es : list (str * node)),
    plain_component new_version = true ->
    lookup (fs w) (server_path server) = Some (Dir t es) ->
    ~ In new_version (names es) ->
    (forall d, In d (names es) ->
               isdir (fs w) (join (server_path server) d) = false) ->
    process_server server new_version env_rules w
    = (inl FileNotFoundError,
       mkWorld (fs w) (clock w) (out w ++ [MsgProcessing (server_name server)])).
Proof.
  intros w server new_version env_rules t es _ Hroot Hnew Hnone.
  unfold process_server, version_exists, bind, print, get_fs, ret.
  cbn [fs clock out]. unfold path_exists. rewrite Hroot. cbn [negb].
  rewrite lookup_join. cbn [fs clock out].
  rewrite Hroot, (find_entry_absent _ _ Hnew).
  rewrite (get_latest_eq _ _ t es) by exact Hroot. cbn [fs clock out].
  assert (E : filter (fun d => isdir (fs w) (join (server_path server) d))
                     (names es) = []).
  { clear Hnew. revert Hnone. generalize (names es) as l.
    induction l as [|d l IH]; intros Hnone; [reflexivity|]. simpl.
    rewrite (Hnone d (or_introl eq_refl)). apply IH.
    intros d' Hd'. apply Hnone. now right. }
  now rewrite E.
Qed.

Lemma no_version_folder_raises_witness :
  process_server api2 (lit "3.8.0") (mkEnvRules [] 100) example_world
  = (inl FileNotFoundError,
     mkWorld example_fs 100 [MsgProcessing (lit "api2")]).
Proof.
  apply (no_version_folder_raises
           example_world api2 (lit "3.8.0") (mkEnvRules [] 100) 2 []
           eq_refl eq_refl).
  - intros H. exact H.
  - intros d H. destruct H.
Defined.

(** X11.  For a target version that is a plain name, a configured root
    that is a regular file passes the existence check, and listing it then
    raises [NotADirectoryError]; the file system is the same afterwards. *)
Theorem file_as_root_raises :
  forall (w : world) (server : ServerEntry) (new_version : str)
         (env_rules : EnvRules) (text : str),
    plain_component new_version = true ->
    lookup (fs w) (server_path server) = Some (File text) ->
    process_server server new_version env_rules w
    = (inl NotADirectoryError,
       mkWorld (fs w) (clock w) (out w ++ [MsgProcessing (server_name server)])).
Proof.
  intros w server new_version env_rules text _ Hroot.
  unfold process_server, version_exists, get_latest_version_path, listdir,
    bind, print, get_fs, ret.
  cbn [fs clock out]. unfold path_exists. rewrite Hroot. cbn [negb].
  rewrite lookup_join. cbn [fs clock out]. rewrite Hroot.
  cbn [fs clock out]. now rewrite Hroot.
Qed.

Lemma file_as_root_raises_witness :
  process_server
    (mkServer (lit "notes") [lit "srv"; lit "api1"; lit "notes.txt"])
    (lit "3.8.0") (mkEnvRules [] 100) example_world
  = (inl NotADirectoryError,
     mkWorld example_fs 100 [MsgProcessing (lit "notes")]).
Proof.
  apply (file_as_root_raises
           example_world
           (mkServer (lit "notes") [lit "srv"; lit "api1"; lit "notes.txt"])
           (lit "3.8.0") (mkEnvRules [] 100) (lit "latest is 3.7.0")
           eq_refl eq_refl).
Defined.

(** ** Copying a version *)

Lemma dirname_join (p : path) (k : str) : dirname (join p k) = p.
Proof. apply removelast_last. Qed.

Lemma basename_join (p : path) (k : str) : basename (join p k) = k.
Proof. apply last_last. Qed.

Lemma wf_dir_intro (t : Z) (es : list (str * node)) :
  NoDup (names es) -> Forall (fun e => wf_node (snd e) = true) es ->
  wf_node (Dir t es) = true.
Proof.
  induction es as [|[k c] es IH]; intros N F; [reflexivity|].
  change (negb (existsb (str_eqb k) (names es)) && wf_node c
          && wf_node (Dir t es) = true).
  inversion N as [|k0 l Hk N']; subst. inversion F as [|e l Hc F']; subst.
  rewrite (IH N' F'). simpl in Hc. rewrite Hc.
  replace (existsb (str_eqb k) (names es)) with false; [reflexivity|].
  symmetry. apply not_true_is_false. intros H.
  apply existsb_exists in H. destruct H as [k' [Hin Hk']].
  apply str_eqb_eq in Hk'. now subst.
Qed.

Lemma wf_stamp (now : Z) (n : node) : wf_node n = true -> wf_node (stamp now n) = true.
Proof.
  induction n as [text | t es IH] using node_forall_ind; intros H; [reflexivity|].
  destruct (wf_dir_inv _ _ H) as [N F].
  change (stamp now (Dir t es))
    with (Dir now (map (fun e => (fst e, stamp now (snd e))) es)).
  apply wf_dir_intro.
  - now rewrite names_map_fst.
  - apply Forall_map. rewrite Forall_forall in *.
    intros e He. simpl. apply IH; auto.
Qed.

Lemma copytree_fresh (w : world) (parent : path) (d v : str)
    (t t' : Z) (es es' : list (str * node)) :
  lookup (fs w) parent = Some (Dir t es) ->
  find_entry d es = Some (Dir t' es') ->
  ~ In v (names es) ->
  copytree (join parent d) (join parent v) w
  = (inr tt,
     mkWorld (put_at (fs w) parent
                (Dir t (es ++ [(v, stamp (clock w) (Dir t' es'))])))
             (clock w + 1) (out w)).
Proof.
  intros Hp Hd Hv. unfold copytree, bind, get_fs, tick, put_fs, path_exists.
  rewrite !lookup_join, Hp, Hd, (find_entry_absent _ _ Hv).
  cbn [fs clock out]. rewrite dirname_join, basename_join.
  now rewrite (update_as_put _ _ _ _ Hp).
Qed.

Lemma copy_version_folder_fresh (w : world) (parent : path) (d v : str)
    (t t' : Z) (es es' : list (str * node)) :
  lookup (fs w) parent = Some (Dir t es) ->
  find_entry d es = Some (Dir t' es') ->
  ~ In v (names es) ->
  copy_version_folder (join parent d) v w
  = (inr (join parent v),
     mkWorld (put_at (fs w) parent
                (Dir t (es ++ [(v, stamp (clock w) (Dir t' es'))])))
             (clock w + 1) (out w ++ [MsgCopied d v])).
Proof.
  intros Hp Hd Hv.
  unfold copy_version_folder, bind. rewrite dirname_join, basename_join.
  rewrite (copytree_fresh w parent d v t t' es es' Hp Hd Hv).
  reflexivity.
Qed.

(** X12.  Copying the version [d] of a directory under a plain name [v]
    that the directory does not hold yet returns the path of the copy,
    prints one line, and adds to the directory one entry named [v]: the
    tree of [d], with its directories created now.  Nothing else
    changes. *)
Theorem copy_adds_a_sibling :
  forall (w : world) (parent : path) (d new_version : str)
         (t t' : Z) (es es' : list (str * node)),
    plain_component new_version = true ->
    lookup (fs w) parent = Some (Dir t es) ->
    find_entry d es = Some (Dir t' es') ->
    ~ In new_version (names es) ->
    copy_version_folder (join parent d) new_version w
    = (inr (join parent new_version),
       mkWorld (put_at (fs w) parent
                  (Dir t (es ++ [(new_version,
                                  stamp (clock w) (Dir t' es'))])))
               (clock w + 1) (out w ++ [MsgCopied d new_version])).
Proof.
  intros w parent d v t t' es es' _ Hp Hd Hv.
  now apply copy_version_folder_fresh.
Qed.

Lemma copy_adds_a_sibling_witness :
  fst (copy_version_folder (join (server_path api1) (lit "3.6.0")) (lit "3.6.1")
                           example_world)
  = inr [lit "srv"; lit "api1"; lit "3.6.1"]
  /\ lookup (fs (snd (copy_version_folder
                        (join (server_path api1) (lit "3.6.0")) (lit "3.6.1")
                        example_world)))
            [lit "srv"; lit "api1"; lit "3.6.1"; lit "app.ini"]
     = Some (File (lit "port=4400")).
Proof.
  rewrite (copy_adds_a_sibling
             example_world (server_path api1) (lit "3.6.0") (lit "3.6.1")
             1 5 _ _ eq_refl eq_refl eq_refl).
  - split; reflexivity.
  - simpl. intros [H | [H | [H | []]]]; discriminate H.
Defined.

(** X13.  An existing entry is never overwritten by the copy: when the
    directory already holds an entry named as the target, the copy raises
    [FileExistsError] and leaves the world as it was. *)
Theorem copy_refuses_existing_target :
  forall (w : world) (parent : path) (d new_version : str)
         (t t' : Z) (es es' : list (str * node)),
    lookup (fs w) parent = Some (Dir t es) ->
    find_entry d es = Some (Dir t' es') ->
    In new_version (names es) ->
    copy_version_folder (join parent d) new_version w
    = (inl FileExistsError, w).
Proof.
  intros w parent d v t t' es es' Hp Hd Hv.
  destruct (find_entry_in _ _ Hv) as [c Hc].
  unfold copy_version_folder, copytree, bind, get_fs, path_exists.
  rewrite dirname_join, !lookup_join, Hp, Hd, Hc. reflexivity.
Qed.

Lemma copy_refuses_existing_target_witness :
  copy_version_folder (join (server_path api1) (lit "3.6.0")) (lit "3.7.0")
                      example_world
  = (inl FileExistsError, example_world).
Proof.
  apply (copy_refuses_existing_target
           example_world (server_path api1) (lit "3.6.0") (lit "3.7.0")
           1 5 _ _ eq_refl eq_refl).
  simpl. right. left. reflexivity.
Defined.

(** ** One server: the new version *)

Lemma update_files_at (env_rules : EnvRules) (version_path : path) (n : node)
    (f : node) (c : Z) (o : list message) :
  lookup f version_path = Some n -> wf_node n = true ->
  update_environment_files version_path env_rules (mkWorld f c o)
  = (inr tt, mkWorld (put_at f version_path (rewrite_tree env_rules n)) c o).
Proof.
  intros Hn Hwf. unfold update_environment_files, bind, get_fs, walk.
  cbn [fs]. rewrite Hn. apply (walk_rewrites env_rules n version_path f c o Hn Hwf).
Qed.

Lemma process_server_fresh (w : world) (server : ServerEntry) (new_version : str)
    (env_rules : EnvRules) (d : str) (t t' : Z) (es es' : list (str * node)) :
  lookup (fs w) (server_path server) = Some (Dir t es) ->
  ~ In new_version (names es) ->
  fst (get_latest_version_path (server_path server) w)
  = inr (join (server_path server) d) ->
  find_entry d es = Some (Dir t' es') ->
  wf_node (Dir t' es') = true ->
  process_server server new_version env_rules w
  = (inr tt,
     mkWorld
       (put_at (fs w) (server_path server)
          (Dir t (es ++ [(new_version,
                          rewrite_tree env_rules
                            (stamp (clock w) (Dir t' es')))])))
       (clock w + 1)
       (out w ++ [MsgProcessing (server_name server);
                  MsgCopied d new_version;
                  MsgUpdated (server_name server) new_version])).
Proof.
  revert new_version. intros v Hroot Hv Hlatest Hd Hwf.
  rewrite (get_latest_eq w _ t es Hroot) in Hlatest. cbn [fst] in Hlatest.
  unfold process_server, version_exists, bind, print, get_fs, ret.
  cbn [fs clock out]. unfold path_exists. rewrite Hroot. cbn [negb].
  rewrite lookup_join. cbn [fs clock out].
  rewrite Hroot, (find_entry_absent _ _ Hv).
  rewrite (get_latest_eq _ _ t es) by exact Hroot. cbn [fs clock out].
  rewrite Hlatest.
  rewrite (copy_version_folder_fresh (mkWorld _ _ _) _ d v t t' es es' Hroot Hd Hv).
  cbn [fs clock out].
  set (copy := stamp (clock w) (Dir t' es')).
  set (f1 := put_at (fs w) (server_path server) (Dir t (es ++ [(v, copy)]))).
  assert (Hroot1 : lookup f1 (server_path server)
                   = Some (Dir t (es ++ [(v, copy)])))
    by apply (lookup_put_at_here _ _ _ _ Hroot).
  assert (Hcopy : lookup f1 (join (server_path server) v) = Some copy).
  { rewrite lookup_join, Hroot1, find_entry_skip by assumption.
    simpl. now rewrite str_eqb_refl. }
  assert (Hwfc : wf_node copy = true) by (apply wf_stamp; exact Hwf).
  rewrite (update_files_at env_rules _ copy _ _ _ Hcopy Hwfc).
  cbn [fs clock out].
  rewrite (put_at_join _ _ _ _ _ _ Hroot1).
  rewrite update_entry_skip by assumption. simpl update_entry.
  rewrite str_eqb_refl. unfold f1.
  rewrite (put_at_put_at _ _ _ _ _ Hroot).
  now rewrite <- !app_assoc.
Qed.

(** X14.  When the target version is a plain name, the server root is a
    directory that does not hold it, and the latest version of the root is
    [d], [process_server] returns
    normally after three lines of output, and the root has gained exactly
    one entry, named as the target version: the copy of [d] with its INI
    files rewritten. *)
Theorem new_version_is_rewritten_copy_of_latest :
  forall (w : world) (server : ServerEntry) (new_version : str)
         (env_rules : EnvRules) (d : str)
         (t t' : Z) (es es' : list (str * node)),
    plain_component new_version = true ->
    lookup (fs w) (server_path server) = Some (Dir t es) ->
    ~ In new_version (names es) ->
    fst (get_latest_version_path (server_path server) w)
    = inr (join (server_path server) d) ->
    find_entry d es = Some (Dir t' es') ->
    wf_node (Dir t' es') = true ->
    process_server server new_version env_rules w
    = (inr tt,
       mkWorld
         (put_at (fs w) (server_path server)
            (Dir t (es ++ [(new_version,
                            rewrite_tree env_rules
                              (stamp (clock w) (Dir t' es')))])))
         (clock w + 1)
         (out w ++ [MsgProcessing (server_name server);
                    MsgCopied d new_version;
                    MsgUpdated (server_name server) new_version])).
Proof.
  intros w server v env_rules d t t' es es' _. apply process_server_fresh.
Qed.

Lemma new_version_is_rewritten_copy_of_latest_witness :
  let r := process_server api1 (lit "3.8.0")
             (mkEnvRules [(lit "dev", lit "prod")] 100) example_world in
  fst r = inr tt
  /\ lookup (fs (snd r))
            [lit "srv"; lit "api1"; lit "3.8.0"; lit "conf"; lit "Env.INI"]
     = Some (File (lit "env=prod
alt=5100
"))
  /\ out (snd r)
     = [MsgProcessing (lit "api1"); MsgCopied (lit "3.7.0") (lit "3.8.0");
        MsgUpdated (lit "api1") (lit "3.8.0")].
Proof.
  intros r. subst r.
  rewrite (new_version_is_rewritten_copy_of_latest
             example_world api1 (lit "3.8.0")
             (mkEnvRules [(lit "dev", lit "prod")] 100) (lit "3.7.0")
             1 7 _
             [(lit "app.ini", File (lit "port=4500"));
              (lit "conf",
               Dir 8
                 [(lit "Env.INI", File (lit "env=dev
alt=5000
"));
                  (lit "readme.txt", File (lit "port=4500"))])]
             eq_refl eq_refl).
  - repeat split; reflexivity.
  - simpl. intros [H | [H | [H | []]]]; discriminate H.
  - reflexivity.
  - reflexivity.
  - reflexivity.
Defined.

(** ** The new version mirrors the latest one *)

Lemma lookup_app (n : node) (p rel : path) :
  lookup n (p ++ rel)
  = match lookup n p with
    | Some x => lookup x rel
    | None => None
    end.
Proof.
  revert n. induction p as [|a p IH]; intros n; [reflexivity|].
  simpl. destruct n as [|t es]; [reflexivity|].
  destruct (find_entry a es); [apply IH | reflexivity].
Qed.

Lemma find_entry_map (g : str -> node -> node) (k : str)
    (es : list (str * node)) :
  find_entry k (map (fun e => (fst e, g (fst e) (snd e))) es)
  = option_map (g k) (find_entry k es).
Proof.
  induction es as [|[k' c] es IH]; [reflexivity|].
  simpl. destruct (str_eqb k' k) eqn:E; [|exact IH].
  apply str_eqb_eq in E. now subst.
Qed.

Lemma find_entry_clone (env_rules : EnvRules) (now : Z) (k : str)
    (es : list (str * node)) :
  find_entry k (map (rewrite_entry env_rules)
                    (map (fun e => (fst e, stamp now (snd e))) es))
  = option_map (fun c => snd (rewrite_entry env_rules (k, stamp now c)))
               (find_entry k es).
Proof.
  induction es as [|[k' c] es IH]; [reflexivity|].
  simpl. destruct (str_eqb k' k) eqn:E; [|exact IH].
  apply str_eqb_eq in E. now subst.
Qed.

Lemma lookup_clone (env_rules : EnvRules) (now : Z) :
  forall (rel : path) (n : node),
    is_dir n = true ->
    lookup (rewrite_tree env_rules (stamp now n)) rel
    = option_map (clone_node env_rules now (basename rel)) (lookup n rel).
Proof.
  induction rel as [|k rel IH]; intros n Hn.
  - destruct n; [discriminate | reflexivity].
  - destruct n as [|t es]; [discriminate|].
    change (rewrite_tree env_rules (stamp now (Dir t es)))
      with (Dir now
              (map (rewrite_entry env_rules)
                   (map (fun e => (fst e, stamp now (snd e))) es))).
    cbn [lookup]. rewrite find_entry_clone.
    destruct (find_entry k es) as [c|]; [|reflexivity].
    cbn [option_map]. unfold rewrite_entry. cbn [fst snd].
    destruct c as [text | t2 es2].
    + cbn [stamp]. destruct rel; reflexivity.
    + change (match stamp now (Dir t2 es2) with
              | File text =>
                  File (if is_ini k then modify_text env_rules text else text)
              | Dir _ _ => rewrite_tree env_rules (stamp now (Dir t2 es2))
              end) with (rewrite_tree env_rules (stamp now (Dir t2 es2))).
      rewrite IH by reflexivity.
      destruct rel as [|k2 rel]; [reflexivity|].
      reflexivity.
Qed.

(** X15.  After a server has received its new version, named by a plain
    name, the new version mirrors the latest one path by path: where the latest version has
    nothing, a file or a directory, the new version has nothing, a file or
    a directory; the file holds the same text, rewritten if its name is
    that of an INI file. *)
Theorem new_version_mirrors_latest :
  forall (w : world) (server : ServerEntry) (new_version : str)
         (env_rules : EnvRules) (d : str)
         (t t' : Z) (es es' : list (str * node)),
    plain_component new_version = true ->
    lookup (fs w) (server_path server) = Some (Dir t es) ->
    ~ In new_version (names es) ->
    fst (get_latest_version_path (server_path server) w)
    = inr (join (server_path server) d) ->
    find_entry d es = Some (Dir t' es') ->
    wf_node (Dir t' es') = true ->
    let w' := snd (process_server server new_version env_rules w) in
    (forall rel,
        lookup (fs w') (join (server_path server) new_version ++ rel)
        = option_map (clone_node env_rules (clock w) (basename rel))
            (lookup (fs w) (join (server_path server) d ++ rel)))
    /\ (forall rel text,
          lookup (fs w) (join (server_path server) d ++ rel)
          = Some (File text) ->
          lookup (fs w') (join (server_path server) new_version ++ rel)
          = Some (File (if is_ini (basename rel)
                        then modify_text env_rules text else text))).
Proof.
  intros w server v env_rules d t t' es es' _ Hroot Hv Hlatest Hd Hwf w'.
  assert (Hmirror : forall rel,
    lookup (fs w') (join (server_path server) v ++ rel)
    = option_map (clone_node env_rules (clock w) (basename rel))
        (lookup (fs w) (join (server_path server) d ++ rel))).
  { intros rel. unfold w'.
    rewrite (process_server_fresh w server v env_rules d t t' es es')
      by assumption.
    cbn [snd fs]. unfold join. rewrite <- !app_assoc.
    rewrite (lookup_put_at _ _ _ _ _ Hroot).
    rewrite (lookup_app (fs w)), Hroot.
    cbn [app lookup]. rewrite Hd.
    rewrite find_entry_skip by assumption. cbn [find_entry].
    rewrite str_eqb_refl. now apply lookup_clone. }
  split; [exact Hmirror|].
  intros rel text Hfile. now rewrite Hmirror, Hfile.
Qed.

Lemma new_version_mirrors_latest_witness :
  let w' := snd (process_server api1 (lit "3.8.0")
                   (mkEnvRules [(lit "dev", lit "prod")] 100) example_world) in
  lookup (fs w')
         (join (server_path api1) (lit "3.8.0") ++ [lit "conf"; lit "readme.txt"])
  = Some (File (lit "port=4500"))
  /\ lookup (fs w')
            (join (server_path api1) (lit "3.8.0") ++ [lit "app.ini"])
     = Some (File (lit "port=4600")).
Proof.
  destruct (new_version_mirrors_latest
              example_world api1 (lit "3.8.0")
              (mkEnvRules [(lit "dev", lit "prod")] 100) (lit "3.7.0")
              1 7 _
              [(lit "app.ini", File (lit "port=4500"));
               (lit "conf",
                Dir 8
                  [(lit "Env.INI", File (lit "env=dev
alt=5000
"));
                   (lit "readme.txt", File (lit "port=4500"))])]
              eq_refl eq_refl) as [_ H]; try reflexivity.
  - simpl. intros [H | [H | [H | []]]]; discriminate H.
  - split.
    + exact (H [lit "conf"; lit "readme.txt"] _ eq_refl).
    + exact (H [lit "app.ini"] _ eq_refl).
Defined.

(** ** Running again *)

Lemma process_server_present (w : world) (server : ServerEntry)
    (new_version : str) (env_rules : EnvRules) (t : Z)
    (es : list (str * node)) (c : node) :
  lookup (fs w) (server_path server) = Some (Dir t es) ->
  find_entry new_version es = Some c ->
  process_server server new_version env_rules w
  = (inr tt,
     mkWorld (fs w) (clock w)
             (out w ++ [MsgProcessing (server_name server);
                        MsgVersionExists new_version (server_path server)])).
Proof.
  intros Hroot Hc.
  unfold process_server, version_exists, bind, print, get_fs, ret.
  cbn [fs clock out]. unfold path_exists. rewrite Hroot. cbn [negb].
  rewrite lookup_join. cbn [fs clock out]. rewrite Hroot, Hc. cbn [fs clock out].
  now rewrite <- app_assoc.
Qed.

(** X16.  Processing a server a second time for the same version, named
    by a plain name, is harmless: once the server has received the new version, processing it
    again, with whatever rules, finds the version present, reports the skip
    and leaves the file system as the first pass left it. *)
Theorem second_pass_is_a_skip :
  forall (w : world) (server : ServerEntry) (new_version : str)
         (env_rules env_rules' : EnvRules) (d : str)
         (t t' : Z) (es es' : list (str * node)),
    plain_component new_version = true ->
    lookup (fs w) (server_path server) = Some (Dir t es) ->
    ~ In new_version (names es) ->
    fst (get_latest_version_path (server_path server) w)
    = inr (join (server_path server) d) ->
    find_entry d es = Some (Dir t' es') ->
    wf_node (Dir t' es') = true ->
    let w' := snd (process_server server new_version env_rules w) in
    process_server server new_version env_rules' w'
    = (inr tt,
       mkWorld (fs w') (clock w')
               (out w' ++ [MsgProcessing (server_name server);
                           MsgVersionExists new_version (server_path server)])).
Proof.
  intros w server v env_rules env_rules' d t t' es es' _ Hroot Hv Hlatest Hd
    Hwf w'.
  unfold w'.
  rewrite (process_server_fresh w server v env_rules d t t' es es')
    by assumption.
  cbn [snd].
  apply (process_server_present _ _ _ _ t
           (es ++ [(v, rewrite_tree env_rules (stamp (clock w) (Dir t' es')))])
           (rewrite_tree env_rules (stamp (clock w) (Dir t' es')))).
  - cbn [fs]. apply (lookup_put_at_here _ _ _ _ Hroot).
  - rewrite find_entry_skip by assumption. simpl. now rewrite str_eqb_refl.
Qed.

Lemma second_pass_is_a_skip_witness :
  let rules := mkEnvRules [(lit "dev", lit "prod")] 100 in
  let w' := snd (process_server api1 (lit "3.8.0") rules example_world) in
  fs (snd (process_server api1 (lit "3.8.0") rules w')) = fs w'
  /\ fst (process_server api1 (lit "3.8.0") rules w') = inr tt.
Proof.
  intros rules w'. subst w'.
  rewrite (second_pass_is_a_skip
             example_world api1 (lit "3.8.0") rules rules (lit "3.7.0")
             1 7 _
             [(lit "app.ini", File (lit "port=4500"));
              (lit "conf",
               Dir 8
                 [(lit "Env.INI", File (lit "env=dev
alt=5000
"));
                  (lit "readme.txt", File (lit "port=4500"))])]
             eq_refl eq_refl).
  - split; reflexivity.
  - simpl. intros [H | [H | [H | []]]]; discriminate H.
  - reflexivity.
  - reflexivity.
  - reflexivity.
Defined.

(** ** Existing files are left alone *)

Lemma files_kept_refl (f : node) : files_kept f f.
Proof. intros p text H. exact H. Qed.

Lemma files_kept_trans (f g h : node) :
  files_kept f g -> files_kept g h -> files_kept f h.
Proof. intros H1 H2 p text H. apply H2, H1, H. Qed.

Lemma find_entry_app_found (k : str) (es l : list (str * node)) (c : node) :
  find_entry k es = Some c -> find_entry k (es ++ l) = Some c.
Proof.
  induction es as [|[k' c'] es IH]; [discriminate|].
  simpl. destruct (str_eqb k' k); auto.
Qed.

Lemma find_entry_update_other (k a : str) (g : node -> node)
    (es : list (str * node)) :
  k <> a -> find_entry k (update_entry a g es) = find_entry k es.
Proof.
  intros Hka. induction es as [|[k' c'] es IH]; [reflexivity|].
  simpl. destruct (str_eqb k' a) eqn:Ea; simpl.
  - apply str_eqb_eq in Ea. subst k'.
    now rewrite (str_eqb_neq a k) by congruence.
  - destruct (str_eqb k' k); [reflexivity | exact IH].
Qed.

(** Adding entries at the end of a directory keeps every file. *)
Lemma files_kept_add (l : list (str * node)) :
  forall (p : path) (n : node) (t : Z) (es : list (str * node)),
    lookup n p = Some (Dir t es) ->
    files_kept n (put_at n p (Dir t (es ++ l))).
Proof.
  unfold put_at.
  induction p as [|a p IH]; intros n t es Hp q text Hq.
  - simpl in Hp. injection Hp as ->. simpl.
    destruct q as [|b q]; [discriminate|].
    simpl in *. destruct (find_entry b es) as [c|] eqn:E; [|discriminate].
    now rewrite (find_entry_app_found _ _ _ _ E).
  - destruct (lookup_cons_inv _ _ _ _ Hp) as [t0 [es0 [c0 [-> [Hc0 Hx]]]]].
    destruct q as [|b q]; [discriminate|].
    simpl in Hq. destruct (find_entry b es0) as [cb|] eqn:Eb; [|discriminate].
    simpl. destruct (list_eq_dec ascii_dec b a) as [-> | Hba].
    + rewrite find_entry_update, Hc0. simpl.
      rewrite Hc0 in Eb. injection Eb as <-.
      now apply (IH c0 t es Hx).
    + rewrite find_entry_update_other by assumption. now rewrite Eb.
Qed.

Lemma wf_lookup :
  forall (p : path) (n x : node),
    wf_node n = true -> lookup n p = Some x -> wf_node x = true.
Proof.
  induction p as [|a p IH]; intros n x Hwf H.
  - simpl in H. now injection H as <-.
  - destruct (lookup_cons_inv _ _ _ _ H) as [t [es [c [-> [Hc Hx]]]]].
    destruct (wf_dir_inv _ _ Hwf) as [_ F].
    apply (IH c x); [|exact Hx].
    clear -Hc F. induction es as [|[k' c'] es IHes]; [discriminate|].
    inversion F as [|e l Hc' F']; subst. simpl in Hc.
    destruct (str_eqb k' a); [now injection Hc as <- | auto].
Qed.

Lemma names_update_entry (a : str) (g : node -> node) (es : list (str * node)) :
  names (update_entry a g es) = names es.
Proof.
  induction es as [|[k c] es IH]; [reflexivity|].
  simpl. destruct (str_eqb k a); simpl; [reflexivity | now rewrite IH].
Qed.

Lemma wf_put_at :
  forall (p : path) (n x x0 : node),
    wf_node n = true -> lookup n p = Some x0 -> wf_node x = true ->
    wf_node (put_at n p x) = true.
Proof.
  unfold put_at.
  induction p as [|a p IH]; intros n x x0 Hwf H Hx; [exact Hx|].
  destruct (lookup_cons_inv _ _ _ _ H) as [t [es [c [-> [Hc Hl]]]]].
  destruct (wf_dir_inv _ _ Hwf) as [N F].
  cbn [update]. apply wf_dir_intro; [now rewrite names_update_entry|].
  clear N Hwf H. induction es as [|[k' c'] es IHes]; [constructor|].
  inversion F as [|e l Hc' F']; subst. simpl in Hc |- *.
  destruct (str_eqb k' a).
  - injection Hc as ->. constructor; [|exact F']. simpl.
    now apply (IH c x x0).
  - constructor; [exact Hc' | auto].
Qed.

Lemma wf_rewrite_tree (env_rules : EnvRules) (n : node) :
  wf_node n = true -> wf_node (rewrite_tree env_rules n) = true.
Proof.
  induction n as [text | t es IH] using node_forall_ind; intros H; [reflexivity|].
  destruct (wf_dir_inv _ _ H) as [N F].
  change (rewrite_tree env_rules (Dir t es))
    with (Dir t (map (rewrite_entry env_rules) es)).
  apply wf_dir_intro; [now rewrite names_rewrite_entry|].
  apply Forall_map. rewrite Forall_forall in *. intros [k c] He.
  unfold rewrite_entry. cbn [fst snd].
  destruct c as [text | t2 es2]; [reflexivity|].
  apply (IH (k, Dir t2 es2) He). apply (F (k, Dir t2 es2) He).
Qed.

Lemma wf_add_entry (t : Z) (es : list (str * node)) (v : str) (x : node) :
  wf_node (Dir t es) = true -> ~ In v (names es) -> wf_node x = true ->
  wf_node (Dir t (es ++ [(v, x)])) = true.
Proof.
  intros H Hv Hx. destruct (wf_dir_inv _ _ H) as [N F].
  apply wf_dir_intro.
  - unfold names in *. rewrite map_app. simpl.
    apply NoDup_app; [exact N | constructor; [intros [] | constructor] |].
    intros k Hk [<- | []]. contradiction.
  - apply Forall_app. split; [exact F|]. constructor; [exact Hx | constructor].
Qed.

(** The directory that the resolver returns is an entry of the root. *)
Lemma latest_is_entry (w : world) (root : path) (t : Z)
    (es : list (str * node)) (latest : path) :
  lookup (fs w) root = Some (Dir t es) ->
  fst (get_latest_version_path root w) = inr latest ->
  exists d t' es', latest = join root d /\ find_entry d es = Some (Dir t' es').
Proof.
  intros Hroot H. rewrite (get_latest_eq w root t es Hroot) in H.
  cbn [fst] in H.
  destruct (filter (fun d => isdir (fs w) (join root d)) (names es))
    as [|d0 ds] eqn:Ef; [discriminate|].
  injection H as H.
  destruct (max_by_spec (getctime (fs w)) (join root d0) (map (join root) ds))
    as [Hin _].
  rewrite H in Hin.
  change (join root d0 :: map (join root) ds)
    with (map (join root) (d0 :: ds)) in Hin.
  rewrite <- Ef in Hin. apply in_map_iff in Hin.
  destruct Hin as [d [Hd Hin]]. apply filter_In in Hin. destruct Hin as [_ Hdir].
  unfold isdir in Hdir. rewrite lookup_join, Hroot in Hdir.
  destruct (find_entry d es) as [[|t' es']|] eqn:E; try discriminate.
  exists d, t', es'. split; [now symmetry | exact E].
Qed.

Lemma find_entry_names (k : str) (es : list (str * node)) :
  find_entry k es = None -> ~ In k (names es).
Proof.
  intros H Hin. destruct (find_entry_in _ _ Hin) as [c Hc]. congruence.
Qed.

Lemma find_entry_wf (k : str) (es : list (str * node)) (c : node) :
  Forall (fun e => wf_node (snd e) = true) es ->
  find_entry k es = Some c -> wf_node c = true.
Proof.
  intros F H. induction es as [|[k' c'] es IH]; [discriminate|].
  inversion F as [|e l Hc' F']; subst. simpl in H.
  destruct (str_eqb k' k); [now injection H as <- | auto].
Qed.

Lemma process_server_keeps (w : world) (server : ServerEntry)
    (new_version : str) (env_rules : EnvRules) :
  wf_node (fs w) = true ->
  files_kept (fs w) (fs (snd (process_server server new_version env_rules w)))
  /\ wf_node (fs (snd (process_server server new_version env_rules w))) = true.
Proof.
  intros Hwf.
  destruct (lookup (fs w) (server_path server)) as [[text | t es]|] eqn:Hroot.
  - assert (E : fs (snd (process_server server new_version env_rules w)) = fs w).
    { unfold process_server, version_exists, get_latest_version_path, listdir,
        bind, print, get_fs, ret.
      cbn [fs clock out]. unfold path_exists. rewrite Hroot. cbn [negb].
      rewrite lookup_join. cbn [fs clock out]. rewrite Hroot.
      cbn [fs clock out]. now rewrite Hroot. }
    rewrite E. split; [apply files_kept_refl | exact Hwf].
  - destruct (find_entry new_version es) as [c|] eqn:Hv.
    + rewrite (process_server_present w server new_version env_rules t es c)
        by assumption.
      cbn [snd fs]. split; [apply files_kept_refl | exact Hwf].
    + destruct (fst (get_latest_version_path (server_path server) w))
        as [e | latest] eqn:Hl.
      * assert (E : fs (snd (process_server server new_version env_rules w))
                    = fs w).
        { unfold process_server, version_exists, bind, print, get_fs, ret.
          cbn [fs clock out]. unfold path_exists. rewrite Hroot. cbn [negb].
          rewrite lookup_join. cbn [fs clock out]. rewrite Hroot, Hv.
          rewrite (get_latest_eq _ _ t es) by exact Hroot.
          rewrite (get_latest_eq w _ t es Hroot) in Hl.
          cbn [fs clock out fst] in *.
          destruct (filter (fun d => isdir (fs w) (join (server_path server) d))
                           (names es)); [reflexivity | discriminate]. }
        rewrite E. split; [apply files_kept_refl | exact Hwf].
      * destruct (latest_is_entry w _ t es latest Hroot Hl)
          as [d [t' [es' [-> Hd]]]].
        pose proof (wf_lookup _ _ _ Hwf Hroot) as Hwfroot.
        destruct (wf_dir_inv _ _ Hwfroot) as [_ F].
        pose proof (find_entry_wf _ _ _ F Hd) as Hwfd.
        pose proof (find_entry_names _ _ Hv) as Hnew.
        rewrite (process_server_fresh w server new_version env_rules d
                   t t' es es') by assumption.
        cbn [snd fs]. split.
        -- now apply files_kept_add.
        -- apply (wf_put_at _ _ _ _ Hwf Hroot).
           apply wf_add_entry; try assumption.
           now apply wf_rewrite_tree, wf_stamp.
  - assert (E : fs (snd (process_server server new_version env_rules w)) = fs w).
    { unfold process_server, bind, print, get_fs. cbn [fs clock out].
      unfold path_exists. now rewrite Hroot. }
    rewrite E. split; [apply files_kept_refl | exact Hwf].
Qed.

(** X17.  Processing a server never alters or removes a file that was on
    the disk: whatever the server entry, the version name and the rules,
    and however [process_server] ends, every file that was there is still
    there with the same text. *)
Theorem process_server_keeps_existing_files :
  forall (w : world) (server : ServerEntry) (new_version : str)
         (env_rules : EnvRules),
    wf_node (fs w) = true ->
    files_kept (fs w)
      (fs (snd (process_server server new_version env_rules w))).
Proof.
  intros w server new_version env_rules Hwf.
  now apply process_server_keeps.
Qed.

Lemma for_each_keeps {A} (body : A -> M unit) :
  (forall x w, wf_node (fs w) = true ->
     files_kept (fs w) (fs (snd (body x w)))
     /\ wf_node (fs (snd (body x w))) = true) ->
  forall l w, wf_node (fs w) = true ->
    files_kept (fs w) (fs (snd (for_each l body w)))
    /\ wf_node (fs (snd (for_each l body w))) = true.
Proof.
  intros Hbody. induction l as [|x l IH]; intros w Hwf.
  - simpl. split; [apply files_kept_refl | exact Hwf].
  - simpl. unfold bind. destruct (Hbody x w Hwf) as [K1 W1].
    destruct (body x w) as [[e | []] w1]; cbn [snd] in *; [auto|].
    destruct (IH w1 W1) as [K2 W2].
    split; [eapply files_kept_trans; eassumption | exact W2].
Qed.

(** X18.  A whole run never alters or removes a file that was on the disk,
    whatever is typed at the prompts, whatever the two configuration files
    hold or whether they are there, and whether the run ends normally or
    with an exception. *)
Theorem run_keeps_existing_files :
  forall (w : world) (version_answer environment_answer : str)
         (servers_file : option (list ServerEntry))
         (env_rules_file : option (list (str * EnvRules))),
    wf_node (fs w) = true ->
    files_kept (fs w)
      (fs (snd (main version_answer environment_answer
                     servers_file env_rules_file w))).
Proof.
  intros w va ea sf rf Hwf.
  unfold main, bind, print, load_json, ret, raise. cbn [fs clock out].
  destruct sf as [servers|]; [|apply files_kept_refl].
  destruct rf as [rules|]; [|apply files_kept_refl].
  destruct (dict_get (upper (strip ea)) rules) as [env_rules|];
    [|apply files_kept_refl].
  cbn [fs clock out].
  set (w1 := mkWorld (fs w) (clock w)
                     ((out w ++ [MsgBanner]) ++ [MsgFound (length servers)])).
  destruct (for_each_keeps
              (fun srv => process_server srv (strip va) env_rules)
              (fun x w0 H => process_server_keeps w0 x (strip va) env_rules H)
              servers w1 Hwf) as [K _].
  destruct (for_each servers
              (fun srv => process_server srv (strip va) env_rules) w1)
    as [[e | []] w2]; exact K.
Qed.

Lemma process_server_keeps_existing_files_witness :
  lookup (fs (snd (process_server api1 (lit "3.8.0")
                     (mkEnvRules [(lit "dev", lit "prod")] 100) example_world)))
         [lit "srv"; lit "api1"; lit "3.7.0"; lit "app.ini"]
  = Some (File (lit "port=4500")).
Proof.
  exact (process_server_keeps_existing_files
           example_world api1 (lit "3.8.0")
           (mkEnvRules [(lit "dev", lit "prod")] 100) eq_refl
           [lit "srv"; lit "api1"; lit "3.7.0"; lit "app.ini"]
           (lit "port=4500") eq_refl).
Defined.

Lemma run_keeps_existing_files_witness :
  lookup (fs (snd (main (lit "3.8.0") (lit "a") (Some [api1; api2])
                        (Some example_rules) example_world)))
         [lit "srv"; lit "api1"; lit "3.7.0"; lit "conf"; lit "Env.INI"]
  = Some (File (lit "env=dev
alt=5000
")).
Proof.
  exact (run_keeps_existing_files
           example_world (lit "3.8.0") (lit "a") (Some [api1; api2])
           (Some example_rules) eq_refl
           [lit "srv"; lit "api1"; lit "3.7.0"; lit "conf"; lit "Env.INI"]
           _ eq_refl).
Defined.

(** ** Rewriting files in place *)

Lemma put_at_outside :
  forall (p q : path) (n x x0 : node) (text : str),
    lookup n p = Some x0 -> lookup n q = Some (File text) ->
    (forall rel, q <> p ++ rel) ->
    lookup (put_at n p x) q = Some (File text).
Proof.
  unfold put_at.
  induction p as [|a p IH]; intros q n x x0 text Hp Hq Hout.
  - exfalso. now apply (Hout q).
  - destruct (lookup_cons_inv _ _ _ _ Hp) as [t [es [c [-> [Hc Hx]]]]].
    destruct q as [|b q]; [discriminate|].
    simpl in Hq. destruct (find_entry b es) as [cb|] eqn:Eb; [|discriminate].
    simpl. destruct (list_eq_dec ascii_dec b a) as [-> | Hba].
    + rewrite find_entry_update, Hc. simpl. rewrite Hc in Eb. injection Eb as <-.
      apply (IH q c x x0 text Hx Hq). intros rel E. apply (Hout rel).
      simpl. now f_equal.
    + rewrite find_entry_update_other by assumption. now rewrite Eb.
Qed.

Lemma file_path_not_below (n : node) (p q : path) (text text' : str) :
  lookup n p = Some (File text) -> lookup n q = Some (File text') ->
  q <> p -> forall rel, q <> p ++ rel.
Proof.
  intros Hp Hq Hne rel E. subst q. rewrite lookup_app, Hp in Hq.
  destruct rel as [|k rel]; [|discriminate].
  apply Hne. now rewrite app_nil_r.
Qed.

(** X19.  Rewriting one file puts the rewritten text in that file and
    leaves every other file of the disk as it was; nothing is printed. *)
Theorem rewriting_a_file_touches_only_it :
  forall (w : world) (file_path : path) (env_rules : EnvRules) (text : str),
    lookup (fs w) file_path = Some (File text) ->
    let r := modify_ports_and_paths file_path env_rules w in
    fst r = inr tt
    /\ lookup (fs (snd r)) file_path
       = Some (File (modify_text env_rules text))
    /\ (forall q text', q <> file_path ->
          lookup (fs w) q = Some (File text') ->
          lookup (fs (snd r)) q = Some (File text'))
    /\ out (snd r) = out w /\ clock (snd r) = clock w.
Proof.
  intros w file_path env_rules text H r. unfold r.
  destruct w as [f c o]. cbn [fs] in H.
  rewrite (modify_at env_rules file_path text f c o H). cbn [fst snd fs out clock].
  split; [reflexivity|]. split; [apply (lookup_put_at_here _ _ _ _ H)|].
  split; [|split; reflexivity].
  intros q text' Hne Hq. apply (put_at_outside _ _ _ _ _ _ H Hq).
  now apply (file_path_not_below f file_path q text text').
Qed.

Lemma rewriting_a_file_touches_only_it_witness :
  let r := modify_ports_and_paths
             [lit "srv"; lit "api1"; lit "3.7.0"; lit "app.ini"]
             (mkEnvRules [] 100) example_world in
  lookup (fs (snd r)) [lit "srv"; lit "api1"; lit "3.7.0"; lit "app.ini"]
  = Some (File (lit "port=4600"))
  /\ lookup (fs (snd r)) [lit "srv"; lit "api1"; lit "3.6.0"; lit "app.ini"]
     = Some (File (lit "port=4400")).
Proof.
  destruct (rewriting_a_file_touches_only_it
              example_world
              [lit "srv"; lit "api1"; lit "3.7.0"; lit "app.ini"]
              (mkEnvRules [] 100) (lit "port=4500") eq_refl)
    as [_ [H1 [H2 _]]].
  split; [exact H1|].
  apply H2; [discriminate | reflexivity].
Defined.

(** X20.  The content rewriter touches nothing outside the tree it is
    given: every file of the disk that does not lie under the version path
    is left as it was. *)
Theorem rewriter_stays_inside_the_tree :
  forall (w : world) (version_path : path) (env_rules : EnvRules)
         (t : Z) (es : list (str * node)),
    lookup (fs w) version_path = Some (Dir t es) ->
    wf_node (Dir t es) = true ->
    forall q text,
      (forall rel, q <> version_path ++ rel) ->
      lookup (fs w) q = Some (File text) ->
      lookup (fs (snd (update_environment_files version_path env_rules w))) q
      = Some (File text).
Proof.
  intros w version_path env_rules t es Hroot Hwf q text Hout Hq.
  destruct w as [f c o]. cbn [fs] in *.
  rewrite (update_files_at env_rules version_path _ f c o Hroot Hwf).
  cbn [snd fs]. now apply (put_at_outside _ _ _ _ _ _ Hroot Hq).
Qed.

Lemma rewriter_stays_inside_the_tree_witness :
  lookup (fs (snd (update_environment_files
                     [lit "srv"; lit "api1"; lit "3.7.0"]
                     (mkEnvRules [] 100) example_world)))
         [lit "srv"; lit "api1"; lit "3.6.0"; lit "app.ini"]
  = Some (File (lit "port=4400")).
Proof.
  apply (rewriter_stays_inside_the_tree
           example_world [lit "srv"; lit "api1"; lit "3.7.0"]
           (mkEnvRules [] 100) 7 _ eq_refl eq_refl).
  - intros rel E. discriminate E.
  - reflexivity.
Defined.

(** ** The whole run, continued *)

(** X21.  When either configuration file is absent, the run ends with
    [FileNotFoundError] right after the banner, before the environment
    label is even looked at: no server is processed and the file system is
    the same afterwards. *)
Theorem missing_configuration_ends_the_run :
  forall (w : world) (version_answer environment_answer : str)
         (servers_file : option (list ServerEntry))
         (env_rules_file : option (list (str * EnvRules))),
    servers_file = None \/ env_rules_file = None ->
    main version_answer environment_answer servers_file env_rules_file w
    = (inl FileNotFoundError,
       mkWorld (fs w) (clock w) (out w ++ [MsgBanner])).
Proof.
  intros w va ea sf rf [-> | ->]; unfold main, bind, print, load_json, raise, ret.
  - reflexivity.
  - destruct sf; reflexivity.
Qed.

Lemma missing_configuration_ends_the_run_witness :
  main (lit "3.8.0") (lit "zz") (Some [api1]) None example_world
  = (inl FileNotFoundError, mkWorld example_fs 100 [MsgBanner]).
Proof.
  apply (missing_configuration_ends_the_run
           example_world (lit "3.8.0") (lit "zz") (Some [api1]) None).
  right. reflexivity.
Defined.

(** ** What the run announces *)

Lemma announced_app (a b : list message) :
  announced (a ++ b) = announced a ++ announced b.
Proof.
  induction a as [|m a IH]; [reflexivity|].
  destruct m; simpl; now rewrite IH.
Qed.

Lemma get_latest_snd (p : path) (w : world) :
  snd (get_latest_version_path p w) = w.
Proof.
  unfold get_latest_version_path, listdir, bind, get_fs, ret, raise.
  destruct (lookup (fs w) p) as [[text | t es]|]; try reflexivity.
  destruct (map (join p) (filter (fun d => isdir (fs w) (join p d)) (names es)));
    reflexivity.
Qed.

Lemma copy_version_folder_announces (src : path) (v : str) (w : world) :
  announced (out (snd (copy_version_folder src v w))) = announced (out w).
Proof.
  unfold copy_version_folder, copytree, bind, get_fs, tick, put_fs, print,
    ret, raise.
  destruct (lookup (fs w) src) as [[text | t es]|]; try reflexivity.
  destruct (path_exists (fs w) (join (dirname src) v)); [reflexivity|].
  cbn [snd out fs clock]. rewrite announced_app. simpl. apply app_nil_r.
Qed.

Lemma modify_out (p : path) (env_rules : EnvRules) (w : world) :
  out (snd (modify_ports_and_paths p env_rules w)) = out w.
Proof.
  unfold modify_ports_and_paths, bind, get_fs, put_fs, raise.
  destruct (lookup (fs w) p) as [[text | t es]|]; reflexivity.
Qed.

Lemma for_each_out {A} (body : A -> M unit) :
  (forall x w, out (snd (body x w)) = out w) ->
  forall l w, out (snd (for_each l body w)) = out w.
Proof.
  intros Hbody. induction l as [|x l IH]; intros w; [reflexivity|].
  simpl. unfold bind. specialize (Hbody x w).
  destruct (body x w) as [[e | []] w1]; cbn [snd] in *; [exact Hbody|].
  now rewrite IH.
Qed.

Lemma update_environment_files_out (p : path) (env_rules : EnvRules) (w : world) :
  out (snd (update_environment_files p env_rules w)) = out w.
Proof.
  unfold update_environment_files, bind, get_fs.
  apply for_each_out. intros triple w0.
  apply for_each_out. intros file w1.
  destruct (is_ini file); [apply modify_out | reflexivity].
Qed.

(** Whatever becomes of it, a server is announced, once. *)
Lemma process_server_announces (w : world) (server : ServerEntry)
    (new_version : str) (env_rules : EnvRules) :
  announced (out (snd (process_server server new_version env_rules w)))
  = announced (out w) ++ [server_name server].
Proof.
  unfold process_server, version_exists, bind, print, get_fs, ret.
  cbn [fs clock out].
  destruct (path_exists (fs w) (server_path server)); cbn [negb].
  - cbn [fs clock out].
    destruct (path_exists (fs w) (join (server_path server) new_version)).
    + cbn [snd out]. rewrite !announced_app. simpl. now rewrite app_nil_r.
    + set (w1 := mkWorld (fs w) (clock w)
                         (out w ++ [MsgProcessing (server_name server)])).
      assert (H1 : announced (out w1) = announced (out w) ++ [server_name server])
        by (unfold w1; cbn [out]; now rewrite announced_app).
      pose proof (get_latest_snd (server_path server) w1) as Hl.
      destruct (get_latest_version_path (server_path server) w1)
        as [[e | latest] w2]; cbn [snd] in Hl |- *; subst w2; [exact H1|].
      pose proof (copy_version_folder_announces latest new_version w1) as Hc.
      destruct (copy_version_folder latest new_version w1)
        as [[e | new_path] w3]; cbn [snd] in Hc |- *; [now rewrite Hc|].
      pose proof (update_environment_files_out new_path env_rules w3) as Hu.
      destruct (update_environment_files new_path env_rules w3)
        as [[e | []] w4]; cbn [snd] in Hu |- *.
      * now rewrite Hu, Hc.
      * cbn [snd out]. rewrite announced_app, Hu, Hc, H1. simpl.
        now rewrite app_nil_r.
  - cbn [snd out]. rewrite !announced_app. simpl. now rewrite app_nil_r.
Qed.

Lemma for_each_announces (new_version : str) (env_rules : EnvRules) :
  forall (servers : list ServerEntry) (w : world),
    let r := for_each servers
               (fun srv => process_server srv new_version env_rules) w in
    exists done rest,
      servers = done ++ rest
      /\ announced (out (snd r)) = announced (out w) ++ map server_name done
      /\ (fst r = inr tt -> rest = []).
Proof.
  induction servers as [|x l IH]; intros w r.
  - exists [], []. subst r. simpl. rewrite app_nil_r. auto.
  - subst r. simpl. unfold bind.
    pose proof (process_server_announces w x new_version env_rules) as Hx.
    destruct (process_server x new_version env_rules w) as [[e | []] w1];
      cbn [snd] in Hx.
    + exists [x], l. cbn [fst snd]. repeat split; [exact Hx | discriminate].
    + destruct (IH w1) as [done [rest [E [Ha Hr]]]].
      exists (x :: done), rest. split; [simpl; now f_equal|]. split; [|exact Hr].
      rewrite Ha, Hx. simpl. now rewrite <- app_assoc.
Qed.

(** X22.  With a valid environment label, the servers are announced in the
    order of the configuration, each one once, up to the point where the
    run ends; a run that ends normally has announced every server and its
    last line says that all servers were processed. *)
Theorem servers_are_announced_in_order :
  forall (w : world) (version_answer environment_answer : str)
         (servers : list ServerEntry)
         (env_rules_data : list (str * EnvRules)) (env_rules : EnvRules),
    dict_get (upper (strip environment_answer)) env_rules_data
    = Some env_rules ->
    let r := main version_answer environment_answer
                  (Some servers) (Some env_rules_data) w in
    exists done rest,
      servers = done ++ rest
      /\ announced (out (snd r)) = announced (out w) ++ map server_name done
      /\ (fst r = inr tt ->
          rest = [] /\ exists o, out (snd r) = o ++ [MsgAllProcessed]).
Proof.
  intros w va ea servers rules env_rules Hkey r. subst r.
  unfold main, bind, print, load_json, ret. cbn [fs clock out].
  rewrite Hkey. cbn [fs clock out].
  set (w1 := mkWorld (fs w) (clock w)
                     ((out w ++ [MsgBanner]) ++ [MsgFound (length servers)])).
  assert (H1 : announced (out w1) = announced (out w)).
  { unfold w1. cbn [out]. rewrite !announced_app. simpl. now rewrite !app_nil_r. }
  destruct (for_each_announces (strip va) env_rules servers w1)
    as [done [rest [E [Ha Hr]]]].
  exists done, rest. split; [exact E|].
  destruct (for_each servers
              (fun srv => process_server srv (strip va) env_rules) w1)
    as [[e | []] w2]; cbn [fst snd] in *.
  - split; [now rewrite Ha, H1 | discriminate].
  - cbn [out]. split.
    + rewrite announced_app, Ha, H1. simpl. now rewrite app_nil_r.
    + intros _. split; [now apply Hr | now exists (out w2)].
Qed.

Lemma servers_are_announced_in_order_witness :
  exists done rest,
    [api1; api2; api1] = done ++ rest
    /\ announced (out (snd (main (lit "3.8.0") (lit "b")
                                 (Some [api1; api2; api1])
                                 (Some example_rules) example_world)))
       = announced (out example_world) ++ map server_name done
    /\ (fst (main (lit "3.8.0") (lit "b") (Some [api1; api2; api1])
                  (Some example_rules) example_world) = inr tt ->
        rest = []
        /\ exists o,
             out (snd (main (lit "3.8.0") (lit "b") (Some [api1; api2; api1])
                            (Some example_rules) example_world))
             = o ++ [MsgAllProcessed]).
Proof.
  apply (servers_are_announced_in_order
           example_world (lit "3.8.0") (lit "b") [api1; api2; api1]
           example_rules (mkEnvRules [] 200) eq_refl).
Defined.
